(** * contactmerge_lib: abuse-desk ticket triage over an OTRS connector

    A shallow embedding of [contactmerge_lib.py].  Python text is a
    [string] (code points below 256, where [\d] is exactly [0-9]); ticket
    ids and queue ids are [Z]; the remote ticket system is an interface
    ([Remote]) the program is parametric in, with one executable
    instance ([Otrs]) used where a claim speaks about ticket contents.
    Effects (remote calls, log lines, raised exceptions) are threaded
    through a state-and-exception monad. *)

From Stdlib Require Import ZArith String Ascii List DecimalString Lia Bool.
From stdpp Require Import base option gmap strings list.

Open Scope Z_scope.

(** ** Text *)

Module Text.

Definition chars (s : string) : list ascii := list_ascii_of_string s.
Definition text (l : list ascii) : string := string_of_list_ascii l.

(** [\d] on code points below 256. *)
Definition is_digit (c : ascii) : bool :=
  let n := N_of_ascii c in ((48 <=? n) && (n <=? 57))%N.

(** [.] without [re.DOTALL]: anything but a line feed. *)
Definition is_newline (c : ascii) : bool := (N_of_ascii c =? 10)%N.

End Text.

(** ** Regular expressions as [re.search] runs them

    Only what the pattern of [get_ticket_title_ip] uses: a sequence of
    single-character classes, each once or greedily repeated between
    [lo] and [hi] times. *)

Module Re.
Import Text.

Inductive atom := Digit | Dot.

Inductive item :=
| One (a : atom)
| Rep (a : atom) (lo hi : nat).

Definition accepts (a : atom) (c : ascii) : bool :=
  match a with
  | Digit => is_digit c
  | Dot => negb (is_newline c)
  end.

(** Greedy bounded repetition followed by the continuation [k]: take a
    character while allowed, and give one back each time the rest fails. *)
Fixpoint greedy (a : atom) (k : list ascii -> option (list ascii))
    (lo hi : nat) (s : list ascii) {struct hi} : option (list ascii) :=
  let stop := match lo with O => k s | S _ => None end in
  match hi, s with
  | S hi', c :: s' =>
      if accepts a c then
        match greedy a k (Nat.pred lo) hi' s' with
        | Some m => Some (c :: m)
        | None => stop
        end
      else stop
  | _, _ => stop
  end.

(** The text matched by pattern [p] anchored at the head of [s]. *)
Fixpoint match_here (p : list item) (s : list ascii) {struct p}
    : option (list ascii) :=
  match p with
  | [] => Some []
  | One a :: p' =>
      match s with
      | c :: s' =>
          if accepts a c then option_map (cons c) (match_here p' s') else None
      | [] => None
      end
  | Rep a lo hi :: p' => greedy a (match_here p') lo hi s
  end.

(** [re.search]: the match at the first position that has one. *)
Fixpoint search (p : list item) (s : list ascii) {struct s}
    : option (list ascii) :=
  match match_here p s with
  | Some m => Some m
  | None => match s with
            | [] => None
            | _ :: s' => search p s'
            end
  end.

(** The language of a pattern. *)
Inductive Matches : list item -> list ascii -> Prop :=
| M_nil : Matches [] []
| M_one a c p m :
    accepts a c = true -> Matches p m -> Matches (One a :: p) (c :: m)
| M_rep a lo hi p cs m :
    (lo <= List.length cs <= hi)%nat ->
    Forall (fun c => accepts a c = true) cs ->
    Matches p m -> Matches (Rep a lo hi :: p) (cs ++ m).

(** A match together with the number of characters each repetition
    took, in pattern order. *)
Inductive Parse : list item -> list nat -> list ascii -> Prop :=
| P_nil : Parse [] [] []
| P_one a c p ns m :
    accepts a c = true -> Parse p ns m -> Parse (One a :: p) ns (c :: m)
| P_rep a lo hi p cs ns m :
    (lo <= List.length cs <= hi)%nat ->
    Forall (fun c => accepts a c = true) cs ->
    Parse p ns m ->
    Parse (Rep a lo hi :: p) (List.length cs :: ns) (cs ++ m).

(** The order in which a backtracking matcher prefers the ways to match
    at one position: a greedy repetition takes as much as it can, an
    earlier repetition deciding before a later one. *)
Fixpoint lex_le (a b : list nat) {struct a} : Prop :=
  match a, b with
  | [], _ => True
  | _ :: _, [] => False
  | x :: a', y :: b' => (x < y)%nat \/ (x = y /\ lex_le a' b')
  end.

(** What a continuation [k] must satisfy to stand for "the rest of the
    pattern is [p]". *)
Definition k_sound (p : list item) (k : list ascii -> option (list ascii))
    : Prop :=
  forall s m, k s = Some m -> Matches p m /\ exists rest, s = m ++ rest.

Definition k_complete (p : list item) (k : list ascii -> option (list ascii))
    : Prop :=
  forall m rest, Matches p m -> is_Some (k (m ++ rest)).

Definition k_best (p : list item) (k : list ascii -> option (list ascii))
    : Prop :=
  forall s m, k s = Some m ->
    exists ns,
      Parse p ns m /\
      forall ns' m' rest', Parse p ns' m' -> s = m' ++ rest' -> lex_le ns' ns.

End Re.

(** r'(\d{1,3}.\d{1,3}.\d{1,3}.\d{1,3})' *)
Definition ip_pattern : list Re.item :=
  [Re.Rep Re.Digit 1 3; Re.One Re.Dot; Re.Rep Re.Digit 1 3; Re.One Re.Dot;
   Re.Rep Re.Digit 1 3; Re.One Re.Dot; Re.Rep Re.Digit 1 3].

(** [re.search(ip_pattern, title)] followed by [extract.group(1)]. *)
Definition extract_ip (title : string) : option string :=
  option_map Text.text (Re.search ip_pattern (Text.chars title)).

(** ** Python values, exceptions and [str] *)

Inductive exn :=
| RemoteError (msg : string)   (* whatever the connector raises *)
| TypeError
| AttributeError
| IndexError
| ValueError
| UnboundLocalError.

Inductive result (A : Type) :=
| Ok (a : A)
| Raise (e : exn).
Arguments Ok {A} a.
Arguments Raise {A} e.

(** The right operand of a [+] whose left operand is a [str]. *)
Inductive pyval :=
| VStr (s : string)
| VNone
| VExc (e : exn).

(** [a + b] for a [str] [a]: defined on [str] only. *)
Definition str_add (a : string) (b : pyval) : result string :=
  match b with
  | VStr s => Ok (a +:+ s)
  | VNone | VExc _ => Raise TypeError
  end.

(** An IP as the driver holds it: a [str], or [None]. *)
Definition of_ip (ip : option string) : pyval :=
  match ip with Some s => VStr s | None => VNone end.

Definition str_ip (ip : option string) : string :=
  match ip with Some s => s | None => "None" end.

Definition str_Z (z : Z) : string := NilZero.string_of_int (Z.to_int z).

Fixpoint join_Z (l : list Z) : string :=
  match l with
  | [] => ""
  | [z] => str_Z z
  | z :: l' => str_Z z +:+ ", " +:+ join_Z l'
  end.

Definition str_list_Z (l : list Z) : string := "[" +:+ join_Z l +:+ "]".

(** [l.index(x)] and [l[i]]. *)
Fixpoint py_index {A} `{EqDecision A} (x : A) (l : list A) : result nat :=
  match l with
  | [] => Raise ValueError
  | y :: l' =>
      if decide (y = x) then Ok O
      else match py_index x l' with
           | Ok i => Ok (S i)
           | Raise e => Raise e
           end
  end.

Definition py_getitem {A} (l : list A) (i : nat) : result A :=
  match l !! i with
  | Some x => Ok x
  | None => Raise IndexError
  end.

(** ** Tickets and the connector's calls *)

Record article := { Subject : string; Body : string }.

#[global] Instance article_eq_dec : EqDecision article.
Proof. solve_decision. Defined.

Record ticket := {
  Title : string;
  QueueID : Z;
  State : string;
  Articles : list article;
  DynamicFields : list (string * string)
}.

(** [DynamicField(Name=..., Value=...)] *)
Record dynamic_field := { Name : string; Value : string }.

(** [Ticket(...)] objects the program builds for an update: one keyword
    attribute, or none. *)
Inductive ticket_upd :=
| T_QueueIDs (qs : list Z)
| T_State (s : string)
| T_Title (s : string)
| T_Empty.

(** [Ticket(field)]: the constructor keeps its keyword arguments only,
    so an object passed positionally is dropped and the [Ticket] carries
    no attribute. *)
Definition Ticket_positional (field : dynamic_field) : ticket_upd := T_Empty.

(** [TicketUpdate(id, ticket=...)] or [TicketUpdate(id, article=...)]. *)
Inductive upd :=
| ByTicket (t : ticket_upd)
| ByArticle (a : article).

Inductive call :=
| CSearch (queues : list Z) (title : string)
| CGet (id : Z)
| CUpdate (id : Z) (u : upd).

(** [client.tc]: each operation answers or raises, and may change the
    remote state. *)
Record Remote (R : Type) := {
  TicketSearch : list Z -> string -> R -> result (list Z) * R;
  TicketGet : Z -> R -> result ticket * R;
  TicketUpdate : Z -> upd -> R -> result unit * R
}.
Arguments TicketSearch {R} _ _ _ _.
Arguments TicketGet {R} _ _ _.
Arguments TicketUpdate {R} _ _ _ _.

Inductive level := Debug | Info | Error.

(** What a run can observe: the remote state, the calls sent to it in
    order, and the log. *)
Record world (R : Type) := {
  remote : R;
  calls : list call;
  logs : list (level * string)
}.
Arguments remote {R} _.
Arguments calls {R} _.
Arguments logs {R} _.

(** ** The effect monad *)

Definition M (R A : Type) : Type := world R -> result A * world R.

Definition ret {R A} (a : A) : M R A := fun w => (Ok a, w).

Definition raise {R A} (e : exn) : M R A := fun w => (Raise e, w).

Definition bind {R A B} (m : M R A) (f : A -> M R B) : M R B :=
  fun w =>
    match m w with
    | (Ok a, w') => f a w'
    | (Raise e, w') => (Raise e, w')
    end.

Definition lift {R A} (r : result A) : M R A := fun w => (r, w).

(** [try: m except Exception as e: h e] *)
Definition try_except {R A} (m : M R A) (h : exn -> M R A) : M R A :=
  fun w =>
    match m w with
    | (Ok a, w') => (Ok a, w')
    | (Raise e, w') => h e w'
    end.

(** [try: m except ValueError as e: h e] *)
Definition try_except_ValueError {R A} (m : M R A) (h : exn -> M R A)
    : M R A :=
  fun w =>
    match m w with
    | (Raise ValueError, w') => h ValueError w'
    | r => r
    end.

Definition when {R} (b : bool) (m : M R unit) : M R unit :=
  if b then m else ret tt.

Declare Scope py_scope.
Delimit Scope py_scope with py.
Notation "x <- m ;; k" := (bind m (fun x => k))
  (at level 100, m at next level, right associativity) : py_scope.
Notation "m ;; k" := (bind m (fun _ => k))
  (at level 100, right associativity) : py_scope.
Open Scope py_scope.

Fixpoint for_each {R A} (l : list A) (body : A -> M R unit) : M R unit :=
  match l with
  | [] => ret tt
  | x :: l' => body x ;; for_each l' body
  end.

(** [structlog.get_logger(log).<level>(msg)] *)
Definition log_at {R} (lv : level) (msg : string) : M R unit :=
  fun w =>
    (Ok tt, {| remote := remote w; calls := calls w;
               logs := logs w ++ [(lv, msg)] |}).

(** ** The program *)

Section Program.

Context {R : Type}.
Variable client : Remote R.
(** The [--verbose] flag, read once at import. *)
Variable verbose : bool.

(** A call on [client.tc]: recorded, then answered by the remote. *)
Definition remote_call {A} (c : call) (op : R -> result A * R) : M R A :=
  fun w =>
    let (r, rem') := op (remote w) in
    (r, {| remote := rem'; calls := calls w ++ [c]; logs := logs w |}).

Definition tc_TicketSearch (queues : list Z) (title : string)
    : M R (list Z) :=
  remote_call (CSearch queues title) (TicketSearch client queues title).

Definition tc_TicketGet (id : Z) : M R ticket :=
  remote_call (CGet id) (TicketGet client id).

Definition tc_TicketUpdate (id : Z) (u : upd) : M R unit :=
  remote_call (CUpdate id u) (TicketUpdate client id u).

(** [structlog.get_logger(log).error(prefix + e)] *)
Definition log_exception (prefix : string) (e : exn) : M R unit :=
  msg <- lift (str_add prefix (VExc e)) ;;
  log_at Error msg.

Definition update_ticket_queue (ticket_id queue : Z) : M R unit :=
  when verbose
    (log_at Info ("Updating queue of ticket " +:+ str_Z ticket_id
                  +:+ " with '" +:+ str_Z queue +:+ "'!")) ;;
  try_except
    (tc_TicketUpdate ticket_id (ByTicket (T_QueueIDs [queue])))
    (log_exception "Exception during queue update: ").

Definition update_ticket_ip (ticket_id : Z) (ip : string) : M R unit :=
  when verbose
    (log_at Info ("Updating IP address of ticket " +:+ str_Z ticket_id
                  +:+ " with '" +:+ ip +:+ "'!")) ;;
  try_except
    (tc_TicketUpdate ticket_id
       (ByTicket (Ticket_positional {| Name := "CF-IP"; Value := ip |})))
    (log_exception "Exception during ip address update: ").

Definition close_ticket (ticket_id : Z) : M R unit :=
  when verbose (log_at Info ("Closing ticket " +:+ str_Z ticket_id)) ;;
  try_except
    (tc_TicketUpdate ticket_id (ByTicket (T_State "resolved")))
    (log_exception "Exception during ticket state update: ").

Definition open_ticket (ticket_id : Z) : M R unit :=
  when verbose (log_at Info ("(Re)opening ticket " +:+ str_Z ticket_id)) ;;
  try_except
    (tc_TicketUpdate ticket_id (ByTicket (T_State "Open")))
    (log_exception "Exception during ticket state update: ").

Definition update_ticket_title (ticket_id : Z) (title : string) : M R unit :=
  when verbose
    (log_at Info ("Updating title of ticket " +:+ str_Z ticket_id
                  +:+ " with title '" +:+ title +:+ "'!")) ;;
  try_except
    (tc_TicketUpdate ticket_id (ByTicket (T_Title title)))
    (log_exception "Exception during title update: ").

(** [if ticketid:] *)
Definition truthy (ticketid : Z) : bool := negb (ticketid =? 0).

(** Returns [None] (after an optional log line) for a falsy id. *)
Definition get_ticket (ticketid : Z) : M R (option ticket) :=
  if truthy ticketid then
    ticket <- try_except (tc_TicketGet ticketid) raise ;;
    ret (Some ticket)
  else
    when verbose (log_at Info "Invalid ticketID given!") ;;
    ret None.

(** [t.to_xml()], [t.articles()]: attribute access on what [get_ticket]
    returned. *)
Definition attr {A} (t : option ticket) (f : ticket -> A) : M R A :=
  match t with
  | Some t => ret (f t)
  | None => raise AttributeError
  end.

Definition get_ticket_title_ip (ticketid : Z) : M R (option string) :=
  let fall_through :=
    when verbose (log_at Info "Invalid ticketID given!") ;;
    ret None in
  if truthy ticketid then
    found <- try_except
      (t <- get_ticket ticketid ;;
       title <- attr t Title ;;
       match extract_ip title with
       | Some ip =>
           when verbose (log_at Debug ("Found ip address " +:+ ip)) ;;
           ret (Some ip)
       | None =>
           when verbose
             (log_at Debug "No ip address found in given ticket") ;;
           ret None
       end)
      raise ;;
    match found with
    | Some ip => ret (Some ip)
    | None => fall_through
    end
  else fall_through.

Definition merge_tickets (ticket1_id ticket2_id : Z) : M R unit :=
  when verbose
    (log_at Info ("Merging tickets " +:+ str_Z ticket1_id +:+ " and "
                  +:+ str_Z ticket2_id)) ;;
  ticket1 <- get_ticket ticket1_id ;;
  ticket2 <- get_ticket ticket2_id ;;
  (if verbose then
     t1 <- attr ticket1 Title ;;
     log_at Debug ("Title of merged ticket " +:+ str_Z ticket1_id +:+ ": "
                   +:+ t1) ;;
     t2 <- attr ticket2 Title ;;
     log_at Debug ("Title of merged ticket " +:+ str_Z ticket2_id +:+ ": "
                   +:+ t2)
   else ret tt) ;;
  ticket1_articles <- attr ticket1 Articles ;;
  for_each ticket1_articles (fun art =>
    i <- lift (py_index art ticket1_articles) ;;
    t_upd <- lift (py_getitem ticket1_articles i) ;;
    tc_TicketUpdate ticket2_id (ByArticle t_upd)).

(** The local [tickets] is bound only if the [try] body completed. *)
Definition return_local {A} (tickets : option A) : M R A :=
  match tickets with
  | Some t => ret t
  | None => raise UnboundLocalError
  end.

Definition primary_title (ip : option string) : string :=
  "%Contactformulier KPN voor het IP adres " +:+ str_ip ip +:+ "%".

Definition secondary_title (ip : option string) : string :=
  "%Misbruik van uw internetverbinding " +:+ "[" +:+ str_ip ip +:+ "]%".

Definition primary_queues : list Z := [25].
Definition secondary_queues : list Z := [22; 23; 25].

Definition primary_search (ip : option string) : M R (list Z) :=
  tickets <- try_except
    (r <- tc_TicketSearch primary_queues (primary_title ip) ;; ret (Some r))
    (fun e =>
       log_exception "Exception in primary search request: " e ;;
       ret None) ;;
  return_local tickets.

Definition secondary_search (ip : option string) : M R (list Z) :=
  tickets <- try_except
    (r <- tc_TicketSearch secondary_queues (secondary_title ip) ;;
     ret (Some r))
    (fun e =>
       log_exception "Exception in secondary search request: " e ;;
       ret None) ;;
  return_local tickets.

Definition dossier_queue : Z := 25.

(** ["Misbruik van uw internetverbinding "+"["+ip+"]"] *)
Definition dossier_title (ip : option string) : result string :=
  match str_add ("Misbruik van uw internetverbinding " +:+ "[") (of_ip ip) with
  | Ok s => str_add s (VStr "]")
  | Raise e => Raise e
  end.

Definition handle_results (primary_tickets secondary_tickets : list Z)
    (ip : option string) : M R unit :=
  if (0 <? List.length primary_tickets)%nat then
    if (0 <? List.length secondary_tickets)%nat then
      if (1 <? List.length secondary_tickets)%nat then
        log_at Error "Multiple dossiers found, aborting."
      else
        p <- lift (py_getitem primary_tickets 0) ;;
        s <- lift (py_getitem secondary_tickets 0) ;;
        merge_tickets p s ;;
        p <- lift (py_getitem primary_tickets 0) ;;
        close_ticket p ;;
        s <- lift (py_getitem secondary_tickets 0) ;;
        open_ticket s
    else
      ticket_title <- lift (dossier_title ip) ;;
      p <- lift (py_getitem primary_tickets 0) ;;
      update_ticket_title p ticket_title ;;
      p <- lift (py_getitem primary_tickets 0) ;;
      update_ticket_queue p dossier_queue ;;
      p <- lift (py_getitem primary_tickets 0) ;;
      open_ticket p
  else
    if verbose then
      msg <- lift (str_add "No results found for ip: " (of_ip ip)) ;;
      log_at Info msg
    else ret tt.

(** The body of the driver's [for ticket in primary_tickets:]. *)
Definition process_ticket (primary_tickets : list Z) (ticket : Z)
    : M R (list Z) :=
  i <- lift (py_index ticket primary_tickets) ;;
  t <- lift (py_getitem primary_tickets i) ;;
  secondary_ip <- get_ticket_title_ip t ;;
  secondary_tickets <- secondary_search secondary_ip ;;
  handle_results [ticket] secondary_tickets secondary_ip ;;
  ret secondary_tickets.

(** The loop, carrying the local [secondary_tickets] it rebinds. *)
Fixpoint process_all (primary_tickets rest secondary_tickets : list Z)
    : M R (list Z) :=
  match rest with
  | [] => ret secondary_tickets
  | ticket :: rest' =>
      secondary_tickets' <- process_ticket primary_tickets ticket ;;
      process_all primary_tickets rest' secondary_tickets'
  end.

(** [client] stands for what [init_connection()] returned. *)
Definition main : M R unit :=
  let ip := "%" in
  try_except_ValueError
    (when verbose (log_at Debug "Connecting to OTRS") ;;
     when verbose (log_at Debug ("Searching for ip: " +:+ ip)) ;;
     primary_tickets <- primary_search (Some ip) ;;
     secondary_tickets <- process_all primary_tickets primary_tickets [] ;;
     when verbose
       (log_at Debug ("Primary search results: "
                      +:+ str_list_Z primary_tickets) ;;
        log_at Debug ("Secondary search results: "
                      +:+ str_list_Z secondary_tickets)))
    (log_exception "Invalid IP address found as input: ").

End Program.

Arguments handle_results {R} client verbose _ _ _ _.
Arguments main {R} client verbose _.

(** ** A reference ticket service *)

Module Otrs.
Import Text.

(** Modelled from the spec: the remote ticket service, which is an
    external collaborator and not code of this repository.  It offers
    search by queue and title pattern, get by id, and update by id of the
    queue, title, state, a custom field, or an appended article.  Tickets
    live in a finite map by id; [faults] is a schedule of transport
    failures, one entry consumed per call. *)
Record state := {
  db : gmap Z ticket;
  faults : list (option exn)
}.

(** Title patterns: [%] stands for any run of characters. *)
Fixpoint star (k : list ascii -> bool) (s : list ascii) {struct s} : bool :=
  k s || match s with [] => false | _ :: s' => star k s' end.

Fixpoint like (p s : list ascii) {struct p} : bool :=
  match p with
  | [] => match s with [] => true | _ :: _ => false end
  | c :: p' =>
      if Ascii.eqb c "%" then star (like p') s
      else
        match s with
        | [] => false
        | d :: s' => Ascii.eqb c d && like p' s'
        end
  end.

Definition apply_ticket_upd (u : ticket_upd) (t : ticket) : ticket :=
  match u with
  | T_QueueIDs qs =>
      {| Title := Title t; QueueID := default (QueueID t) (head qs);
         State := State t; Articles := Articles t;
         DynamicFields := DynamicFields t |}
  | T_State s =>
      {| Title := Title t; QueueID := QueueID t; State := s;
         Articles := Articles t; DynamicFields := DynamicFields t |}
  | T_Title s =>
      {| Title := s; QueueID := QueueID t; State := State t;
         Articles := Articles t; DynamicFields := DynamicFields t |}
  | T_Empty => t
  end.

Definition apply_upd (u : upd) (t : ticket) : ticket :=
  match u with
  | ByTicket tu => apply_ticket_upd tu t
  | ByArticle a =>
      {| Title := Title t; QueueID := QueueID t; State := State t;
         Articles := Articles t ++ [a]; DynamicFields := DynamicFields t |}
  end.

(** [t] with the articles [arts] appended in order. *)
Definition add_articles (t : ticket) (arts : list article) : ticket :=
  {| Title := Title t; QueueID := QueueID t; State := State t;
     Articles := Articles t ++ arts; DynamicFields := DynamicFields t |}.

Definition selected (queues : list Z) (title : string) (t : ticket) : bool :=
  bool_decide (QueueID t ∈ queues) && like (chars title) (chars (Title t)).

Definition do_search (queues : list Z) (title : string) (d : gmap Z ticket)
    : result (list Z) * gmap Z ticket :=
  (Ok (List.map fst
         (List.filter (fun it => selected queues title (snd it))
            (map_to_list d))), d).

Definition do_get (id : Z) (d : gmap Z ticket)
    : result ticket * gmap Z ticket :=
  match d !! id with
  | Some t => (Ok t, d)
  | None => (Raise (RemoteError "TicketGet.AccessDenied"), d)
  end.

Definition do_update (id : Z) (u : upd) (d : gmap Z ticket)
    : result unit * gmap Z ticket :=
  match d !! id with
  | Some t => (Ok tt, <[id := apply_upd u t]> d)
  | None => (Raise (RemoteError "TicketUpdate.AccessDenied"), d)
  end.

(** One call: fail as scheduled, else answer from the map. *)
Definition answer {A} (op : gmap Z ticket -> result A * gmap Z ticket)
    (σ : state) : result A * state :=
  match faults σ with
  | Some e :: fs => (Raise e, {| db := db σ; faults := fs |})
  | None :: fs =>
      let (r, d) := op (db σ) in (r, {| db := d; faults := fs |})
  | [] => let (r, d) := op (db σ) in (r, {| db := d; faults := [] |})
  end.

Definition service : Remote state := {|
  TicketSearch := fun queues title => answer (do_search queues title);
  TicketGet := fun id => answer (do_get id);
  TicketUpdate := fun id u => answer (do_update id u)
|}.

(** The world of a run in progress. *)
Definition mk (d : gmap Z ticket) (fs : list (option exn)) (cs : list call)
    (ls : list (level * string)) : world state :=
  {| remote := {| db := d; faults := fs |}; calls := cs; logs := ls |}.

(** A world with no call made and nothing logged yet. *)
Definition fresh (d : gmap Z ticket) (fs : list (option exn)) : world state :=
  mk d fs [] [].

(** A world whose service answers every call. *)
Definition up (d : gmap Z ticket) (cs : list call) (ls : list (level * string))
    : world state :=
  mk d [] cs ls.

End Otrs.

(** ** The specification's vocabulary *)

(** A dotted quad as the specification words it: four runs of one to
    three digits with one separator character between them, the
    separators being those [sep] allows. *)
Definition digits13 (d : string) : Prop :=
  (1 <= String.length d <= 3)%nat /\
  Forall (fun c => Text.is_digit c = true) (Text.chars d).

Definition dotted_quad (sep : ascii -> Prop) (m : string) : Prop :=
  exists d1 s1 d2 s2 d3 s3 d4,
    m = d1 +:+ String s1 (d2 +:+ String s2 (d3 +:+ String s3 d4)) /\
    digits13 d1 /\ digits13 d2 /\ digits13 d3 /\ digits13 d4 /\
    sep s1 /\ sep s2 /\ sep s3.

(** A dotted quad split into its four digit runs of the given lengths. *)
Definition quad_parse (sep : ascii -> Prop) (m : string) (ns : list nat)
    : Prop :=
  exists d1 s1 d2 s2 d3 s3 d4,
    m = d1 +:+ String s1 (d2 +:+ String s2 (d3 +:+ String s3 d4)) /\
    digits13 d1 /\ digits13 d2 /\ digits13 d3 /\ digits13 d4 /\
    sep s1 /\ sep s2 /\ sep s3 /\
    ns = [String.length d1; String.length d2; String.length d3;
          String.length d4].

Definition any_char (c : ascii) : Prop := True.
Definition not_newline (c : ascii) : Prop := Text.is_newline c = false.

(** [m] occurs in [title] after exactly the characters of [pre]. *)
Definition occurs_at (title pre m : string) : Prop :=
  exists post, title = pre +:+ m +:+ post.

(** The first dotted quad of a title, as a search with
    [\d{1,3}.\d{1,3}.\d{1,3}.\d{1,3}] reports it: it starts where the
    earliest dotted quad starts, and of the dotted quads starting there
    it is the one whose digit runs are longest, the first run deciding
    before the second, and so on. *)
Definition first_match (title ip : string) : Prop :=
  exists pre ns,
    occurs_at title pre ip /\ quad_parse not_newline ip ns /\
    (forall pre' m',
        occurs_at title pre' m' -> dotted_quad not_newline m' ->
        (String.length pre <= String.length pre')%nat) /\
    (forall m' ns',
        occurs_at title pre m' -> quad_parse not_newline m' ns' ->
        Re.lex_le ns' ns).

(** The informational line a verbose run writes, if any. *)
Definition info (verbose : bool) (msg : string) : list (level * string) :=
  if verbose then [(Info, msg)] else [].

(** The canonical dossier phrase for an IP. *)
Definition dossier_phrase (ip : string) : string :=
  "Misbruik van uw internetverbinding [" +:+ ip +:+ "]".

(** The tickets a classification call may act on: the first primary
    match, and the dossier when it is the only secondary match. *)
Definition targets (primary secondary : list Z) (id : Z) : Prop :=
  head primary = Some id \/ secondary = [id].

(** A computation keeps a relation between the world it starts in and
    the world it leaves, however it ends. *)
Definition preserves {R A : Type} (I : world R -> world R -> Prop)
    (m : M R A) : Prop :=
  forall w, I w (snd (m w)).

(** The calls added between two worlds update only tickets in [ok]. *)
Definition only_updates {R : Type} (ok : Z -> Prop) (w w' : world R) : Prop :=
  exists cs,
    calls w' = calls w ++ cs /\
    forall id u, In (CUpdate id u) cs -> ok id.

(** Tickets outside [ok] are stored unchanged. *)
Definition untouched (ok : Z -> Prop) (w w' : world Otrs.state) : Prop :=
  forall id, ~ ok id ->
    Otrs.db (remote w') !! id = Otrs.db (remote w) !! id.

(** The only error line a run is seen to write. *)
Definition abort_line : string := "Multiple dossiers found, aborting.".

(** Between two worlds the log only grew, and every error line added is
    the abort line. *)
Definition error_lines_ok {R : Type} (w w' : world R) : Prop :=
  exists ls,
    logs w' = logs w ++ ls /\
    forall msg, In (Error, msg) ls -> msg = abort_line.

(** Separators of a dotted-decimal address, and text around one. *)
Definition literal_dot (c : ascii) : Prop := c = "."%char.

Definition no_digit (s : string) : Prop :=
  Forall (fun c => Text.is_digit c = false) (Text.chars s).

Definition no_leading_digit (s : string) : Prop :=
  match s with
  | EmptyString => True
  | String c _ => Text.is_digit c = false
  end.

(** [m] sends the update [u] for ticket [id] once and nothing else; it
    ends normally when the remote answered, and with [TypeError] when
    it raised. *)
Definition sends_one_update {R : Type} (client : Remote R) (m : M R unit)
    (id : Z) (u : upd) (w : world R) : Prop :=
  calls (snd (m w)) = calls w ++ [CUpdate id u] /\
  remote (snd (m w)) = snd (TicketUpdate client id u (remote w)) /\
  fst (m w) = match fst (TicketUpdate client id u (remote w)) with
              | Ok _ => Ok tt
              | Raise _ => Raise TypeError
              end.

(** The classifier as the specification tabulates it. *)
Inductive action := NoAction | NewDossier | Merge | Abort.

Definition classify (primary_count secondary_count : nat) : action :=
  match primary_count, secondary_count with
  | O, _ => NoAction
  | S _, O => NewDossier
  | S _, S O => Merge
  | S _, S (S _) => Abort
  end.

(** ** Sample data *)

Module Sample.

Definition art1 : article := {| Subject := "Melding"; Body := "eerste" |}.
Definition art2 : article := {| Subject := "Re: Melding"; Body := "tweede" |}.
Definition art3 : article := {| Subject := "Dossier"; Body := "geopend" |}.

(** A new contact-form ticket, an existing dossier for the same IP, and
    a contact-form ticket whose title names no IP. *)
Definition P100 : ticket :=
  {| Title := "Contactformulier KPN voor het IP adres [203.0.113.5]";
     QueueID := 25; State := "new"; Articles := [art1; art2];
     DynamicFields := [] |}.

Definition D50 : ticket :=
  {| Title := "Misbruik van uw internetverbinding [203.0.113.5]";
     QueueID := 22; State := "resolved"; Articles := [art3];
     DynamicFields := [] |}.

Definition P103 : ticket :=
  {| Title := "Contactformulier KPN voor het IP adres onbekend";
     QueueID := 25; State := "new"; Articles := [art1];
     DynamicFields := [] |}.

Definition store_A : gmap Z ticket := {[ 100 := P100 ]}.
Definition store_B : gmap Z ticket := <[ 50 := D50 ]> {[ 100 := P100 ]}.
Definition store_C : gmap Z ticket := {[ 103 := P103 ]}.

(** A ticket that happens to carry the dossier phrase for the text
    ["None"], next to the ticket without an IP. *)
Definition D60 : ticket :=
  {| Title := "Misbruik van uw internetverbinding [None]";
     QueueID := 22; State := "Open"; Articles := [art3];
     DynamicFields := [] |}.

Definition store_D : gmap Z ticket := <[ 60 := D60 ]> {[ 103 := P103 ]}.

(** A contact-form ticket with two dossiers for its IP. *)
Definition P104 : ticket :=
  {| Title := "Contactformulier KPN voor het IP adres [198.51.100.7]";
     QueueID := 25; State := "new"; Articles := [art1];
     DynamicFields := [] |}.

Definition D51 : ticket :=
  {| Title := "Misbruik van uw internetverbinding [198.51.100.7]";
     QueueID := 22; State := "Open"; Articles := [art3];
     DynamicFields := [] |}.

Definition D52 : ticket :=
  {| Title := "Misbruik van uw internetverbinding [198.51.100.7]";
     QueueID := 23; State := "Open"; Articles := [];
     DynamicFields := [] |}.

Definition store_E : gmap Z ticket :=
  <[ 52 := D52 ]> (<[ 51 := D51 ]> {[ 104 := P104 ]}).

(** ["1\n2.3.4"]: digit runs whose first separator is a line feed. *)
Definition title_with_newline : string := String "1" (String "010" "2.3.4").

End Sample.

(** * Properties *)

(** ** Text and pattern matching *)

Section TextFacts.
Import Text.

Lemma text_chars (s : string) : text (chars s) = s.
Proof. apply string_of_list_ascii_of_string. Qed.

Lemma chars_text (l : list ascii) : chars (text l) = l.
Proof. apply list_ascii_of_string_of_list_ascii. Qed.

Lemma chars_app (a b : string) : chars (a +:+ b) = chars a ++ chars b.
Proof. induction a as [|c a IH]; simpl; [reflexivity | now rewrite <- IH]. Qed.

Lemma text_app (a b : list ascii) : text (a ++ b) = text a +:+ text b.
Proof. induction a as [|c a IH]; simpl; [reflexivity | now rewrite IH]. Qed.

Lemma length_chars (s : string) : List.length (chars s) = String.length s.
Proof. induction s as [|c s IH]; simpl; [reflexivity | now rewrite IH]. Qed.

Lemma chars_inj (a b : string) : chars a = chars b -> a = b.
Proof. intros H. rewrite <- (text_chars a), <- (text_chars b). now f_equal. Qed.

End TextFacts.

Section ReFacts.
Import Text Re.

Variable p : list item.
Variable k : list ascii -> option (list ascii).

Lemma greedy_sound (a : atom) :
  k_sound p k ->
  forall hi lo s m,
    greedy a k lo hi s = Some m ->
    Matches (Rep a lo hi :: p) m /\ exists rest, s = m ++ rest.
Proof.
  intros Hk hi. induction hi as [|hi IH]; intros lo s m H.
  - simpl in H. destruct lo; [|destruct s; discriminate].
    assert (k s = Some m) as Hm by (destruct s; exact H).
    destruct (Hk _ _ Hm) as [HM Hr]. split; [|exact Hr].
    apply (M_rep a 0 0 p [] m); [simpl; lia | constructor | exact HM].
  - assert (Hstop : forall m0,
               match lo with O => k s | S _ => None end = Some m0 ->
               Matches (Rep a lo (S hi) :: p) m0 /\
               exists rest, s = m0 ++ rest).
    { intros m0 H0. destruct lo; [|discriminate].
      destruct (Hk _ _ H0) as [HM Hr]. split; [|exact Hr].
      apply (M_rep a 0 (S hi) p [] m0); [simpl; lia | constructor | exact HM]. }
    simpl in H. destruct s as [|c s']; [now apply Hstop|].
    destruct (accepts a c) eqn:Hc; [|now apply Hstop].
    destruct (greedy a k (Nat.pred lo) hi s') as [m1|] eqn:Hg;
      [|now apply Hstop].
    injection H as <-.
    destruct (IH _ _ _ Hg) as [HM [rest ->]].
    split; [|exists rest; reflexivity].
    inversion HM as [| |a' lo' hi' p' cs m' Hlen Hall HM' E1 E2]; subst.
    apply (M_rep a lo (S hi) p (c :: cs) m');
      [simpl; lia | constructor; assumption | exact HM'].
Qed.

Lemma greedy_complete (a : atom) :
  k_complete p k ->
  forall hi lo cs m rest,
    (lo <= List.length cs <= hi)%nat ->
    Forall (fun c => accepts a c = true) cs ->
    Matches p m ->
    is_Some (greedy a k lo hi (cs ++ m ++ rest)).
Proof.
  intros Hk hi. induction hi as [|hi IH]; intros lo cs m rest Hlen Hall HM.
  - destruct cs; [|simpl in Hlen; lia]. simpl in Hlen.
    assert (lo = O) as -> by lia. simpl.
    destruct (m ++ rest) eqn:E; rewrite <- E; now apply Hk.
  - destruct cs as [|c cs].
    + simpl in Hlen. assert (lo = O) as -> by lia.
      cbn [app]. pose proof (Hk m rest HM) as Hs. simpl.
      destruct (m ++ rest) as [|c s']; [exact Hs|].
      destruct (accepts a c); [|exact Hs].
      destruct (greedy a k 0 hi s'); [eexists; reflexivity | exact Hs].
    + inversion Hall as [|c' cs' Hc Hall']; subst. simpl in Hlen.
      cbn [app greedy]. rewrite Hc.
      destruct (IH (Nat.pred lo) cs m rest) as [m1 ->];
        [lia | assumption | assumption |].
      eexists; reflexivity.
Qed.

End ReFacts.

Section SearchFacts.
Import Text Re.

Lemma match_here_sound (p : list item) :
  forall s m, match_here p s = Some m ->
    Matches p m /\ exists rest, s = m ++ rest.
Proof.
  induction p as [|[a|a lo hi] p IH]; intros s m H.
  - injection H as <-. split; [constructor | exists s; reflexivity].
  - simpl in H. destruct s as [|c s']; [discriminate|].
    destruct (accepts a c) eqn:Hc; [|discriminate].
    destruct (match_here p s') as [m1|] eqn:Hm; [|discriminate].
    injection H as <-. destruct (IH _ _ Hm) as [HM [rest ->]].
    split; [now constructor | exists rest; reflexivity].
  - simpl in H. exact (greedy_sound p (match_here p) a IH _ _ _ _ H).
Qed.

Lemma match_here_complete (p : list item) :
  forall m rest, Matches p m -> is_Some (match_here p (m ++ rest)).
Proof.
  induction p as [|[a|a lo hi] p IH]; intros m rest HM.
  - eexists; reflexivity.
  - inversion HM as [|a' c p' m' Hc HM' E1 E2|]; subst.
    cbn [app match_here]. rewrite Hc.
    destruct (IH m' rest HM') as [m1 ->]. eexists; reflexivity.
  - inversion HM as [| |a' lo' hi' p' cs m' Hlen Hall HM' E1 E2]; subst.
    rewrite <- app_assoc. cbn [match_here].
    apply (greedy_complete p (match_here p) a IH); assumption.
Qed.

(** [search] answers with a match, and no match starts before it. *)
Lemma search_some (p : list item) :
  forall s m, search p s = Some m ->
    exists pre post,
      s = pre ++ m ++ post /\ Matches p m /\
      forall pre' m' post',
        s = pre' ++ m' ++ post' -> Matches p m' ->
        (List.length pre <= List.length pre')%nat.
Proof.
  induction s as [|c s IH]; intros m H.
  - simpl in H. destruct (match_here p []) as [m0|] eqn:Hm; [|discriminate].
    injection H as ->. destruct (match_here_sound _ _ _ Hm) as [HM [rest E]].
    exists [], rest. split; [exact E|]. split; [exact HM|]. intros; simpl; lia.
  - simpl in H. destruct (match_here p (c :: s)) as [m0|] eqn:Hm.
    + injection H as ->. destruct (match_here_sound _ _ _ Hm) as [HM [rest E]].
      exists [], rest. split; [exact E|]. split; [exact HM|].
      intros; simpl; lia.
    + destruct (IH _ H) as (pre & post & E & HM & Hmin).
      exists (c :: pre), post. split; [simpl; now rewrite E|].
      split; [exact HM|].
      intros pre' m' post' E' HM'. destruct pre' as [|c' pre'].
      * simpl in E'. rewrite E' in Hm.
        destruct (match_here_complete p m' post' HM') as [x Hx].
        rewrite Hx in Hm. discriminate.
      * simpl in E'. injection E' as _ E'. simpl.
        specialize (Hmin _ _ _ E' HM'). lia.
Qed.

Lemma search_none (p : list item) :
  forall s, search p s = None ->
    forall pre m post, s = pre ++ m ++ post -> ~ Matches p m.
Proof.
  induction s as [|c s IH]; intros H pre m post E HM.
  - simpl in H. destruct (match_here p []) eqn:Hm; [discriminate|].
    destruct pre; [|discriminate]. simpl in E. rewrite E in Hm.
    destruct (match_here_complete p m post HM) as [x Hx].
    rewrite Hx in Hm. discriminate.
  - simpl in H. destruct (match_here p (c :: s)) eqn:Hm; [discriminate|].
    destruct pre as [|c' pre].
    + simpl in E. rewrite E in Hm.
      destruct (match_here_complete p m post HM) as [x Hx].
      rewrite Hx in Hm. discriminate.
    + simpl in E. injection E as _ E. exact (IH H pre m post E HM).
Qed.

End SearchFacts.

Section ExtractFacts.
Import Text Re.

Lemma digits13_text (cs : list ascii) :
  (1 <= List.length cs <= 3)%nat ->
  Forall (fun c => accepts Digit c = true) cs ->
  digits13 (text cs).
Proof.
  intros Hlen Hall. split.
  - now rewrite <- length_chars, chars_text.
  - now rewrite chars_text.
Qed.

Lemma digits13_chars (d : string) :
  digits13 d ->
  (1 <= List.length (chars d) <= 3)%nat /\
  Forall (fun c => accepts Digit c = true) (chars d).
Proof. intros [Hlen Hall]. split; [now rewrite length_chars | exact Hall]. Qed.

Lemma not_newline_accepts (c : ascii) : not_newline c <-> accepts Dot c = true.
Proof.
  unfold not_newline. simpl. destruct (is_newline c); simpl; split; congruence.
Qed.

Lemma text_cons (c : ascii) (l : list ascii) :
  text (c :: l) = String c (text l).
Proof. reflexivity. Qed.

Lemma Matches_nil_inv (m : list ascii) : Matches [] m -> m = [].
Proof. intros H. now inversion H. Qed.

Lemma Matches_one_inv (a : atom) (p : list item) (m : list ascii) :
  Matches (One a :: p) m ->
  exists c m', m = c :: m' /\ accepts a c = true /\ Matches p m'.
Proof. intros H. inversion H; subst. eauto. Qed.

Lemma Matches_rep_inv (a : atom) (lo hi : nat) (p : list item)
    (m : list ascii) :
  Matches (Rep a lo hi :: p) m ->
  exists cs m',
    m = cs ++ m' /\ (lo <= List.length cs <= hi)%nat /\
    Forall (fun c => accepts a c = true) cs /\ Matches p m'.
Proof. intros H. inversion H; subst. eauto 6. Qed.

Lemma ip_pattern_dotted_quad (m : list ascii) :
  Matches ip_pattern m -> dotted_quad not_newline (text m).
Proof.
  unfold ip_pattern. intros H.
  apply Matches_rep_inv in H as (d1 & m1 & -> & L1 & A1 & H).
  apply Matches_one_inv in H as (s1 & m2 & -> & S1 & H).
  apply Matches_rep_inv in H as (d2 & m3 & -> & L2 & A2 & H).
  apply Matches_one_inv in H as (s2 & m4 & -> & S2 & H).
  apply Matches_rep_inv in H as (d3 & m5 & -> & L3 & A3 & H).
  apply Matches_one_inv in H as (s3 & m6 & -> & S3 & H).
  apply Matches_rep_inv in H as (d4 & m7 & -> & L4 & A4 & H).
  apply Matches_nil_inv in H as ->.
  rewrite app_nil_r, !text_app, !text_cons, !text_app, !text_cons,
    !text_app, !text_cons.
  exists (text d1), s1, (text d2), s2, (text d3), s3, (text d4).
  split; [reflexivity|].
  repeat split;
    first [ apply digits13_text; assumption
          | apply not_newline_accepts; assumption ].
Qed.

Lemma dotted_quad_ip_pattern (m : string) :
  dotted_quad not_newline m -> Matches ip_pattern (chars m).
Proof.
  intros (d1 & s1 & d2 & s2 & d3 & s3 & d4 & -> & H1 & H2 & H3 & H4
          & S1 & S2 & S3).
  apply digits13_chars in H1, H2, H3, H4.
  destruct H1 as [L1 A1], H2 as [L2 A2], H3 as [L3 A3], H4 as [L4 A4].
  apply not_newline_accepts in S1, S2, S3.
  rewrite chars_app. cbn [chars list_ascii_of_string].
  fold (chars (d2 +:+ String s2 (d3 +:+ String s3 d4))).
  rewrite chars_app. cbn [chars list_ascii_of_string].
  fold (chars (d3 +:+ String s3 d4)).
  rewrite chars_app. cbn [chars list_ascii_of_string]. fold (chars d4).
  unfold ip_pattern.
  apply M_rep; [assumption..|]. apply M_one; [assumption|].
  apply M_rep; [assumption..|]. apply M_one; [assumption|].
  apply M_rep; [assumption..|]. apply M_one; [assumption|].
  rewrite <- (app_nil_r (chars d4)).
  apply M_rep; [assumption..|]. constructor.
Qed.

Lemma occurs_at_chars (title pre m : string) :
  occurs_at title pre m ->
  exists post, chars title = chars pre ++ chars m ++ post.
Proof.
  intros [post ->]. exists (chars post). now rewrite !chars_app.
Qed.

End ExtractFacts.

Section Preference.
Import Text Re.

Lemma Parse_Matches (p : list item) (ns : list nat) (m : list ascii) :
  Parse p ns m -> Matches p m.
Proof. induction 1; constructor; assumption. Qed.

Lemma lex_le_refl (a : list nat) : lex_le a a.
Proof. induction a as [|x a IH]; simpl; auto. Qed.

Lemma lex_le_antisym (a : list nat) :
  forall b, lex_le a b -> lex_le b a -> a = b.
Proof.
  induction a as [|x a IH]; intros [|y b] Hab Hba; simpl in *;
    try reflexivity; try contradiction.
  destruct Hab as [Hlt|[-> Hab]], Hba as [Hlt'|[E Hba]]; try lia.
  f_equal. now apply IH.
Qed.

(** A greedy repetition ends on the largest count after which the rest
    of the pattern still matches. *)
Lemma greedy_best (p : list item) (k : list ascii -> option (list ascii))
    (a : atom) :
  k_best p k -> k_complete p k ->
  forall hi lo, k_best (Rep a lo hi :: p) (greedy a k lo hi).
Proof.
  intros Hbest Hcompl hi. induction hi as [|hi IH]; intros lo s m H.
  - simpl in H. destruct lo; [|destruct s; discriminate].
    assert (k s = Some m) as Hm by (destruct s; exact H).
    destruct (Hbest _ _ Hm) as (ns & HP & Hmax).
    exists (O :: ns). split.
    + apply (P_rep a 0 0 p [] ns m); [simpl; lia | constructor | exact HP].
    + intros ns' m' rest' HP' E.
      inversion HP' as [| |a' lo' hi' p' cs ns0 m0 Hlen Hall HP0]; subst.
      destruct cs; [|simpl in Hlen; lia]. simpl. right.
      split; [reflexivity|]. exact (Hmax _ _ _ HP0 eq_refl).
  - assert (Hstop : forall m0,
               match lo with O => k s | S _ => None end = Some m0 ->
               (forall c cs ns0 m1 rest',
                   (lo <= S (List.length cs) <= S hi)%nat ->
                   Forall (fun x => accepts a x = true) (c :: cs) ->
                   Parse p ns0 m1 -> s = ((c :: cs) ++ m1) ++ rest' ->
                   False) ->
               exists ns,
                 Parse (Rep a lo (S hi) :: p) ns m0 /\
                 forall ns' m' rest',
                   Parse (Rep a lo (S hi) :: p) ns' m' -> s = m' ++ rest' ->
                   lex_le ns' ns).
    { intros m0 H0 Hno. destruct lo; [|discriminate].
      destruct (Hbest _ _ H0) as (ns & HP & Hmax).
      exists (O :: ns). split.
      - apply (P_rep a 0 (S hi) p [] ns m0);
          [simpl; lia | constructor | exact HP].
      - intros ns' m' rest' HP' E.
        inversion HP' as [| |a' lo' hi' p' cs ns0 m1 Hlen Hall HP0]; subst.
        destruct cs as [|c cs].
        + simpl. right. split; [reflexivity|].
          exact (Hmax _ _ _ HP0 eq_refl).
        + exfalso. eapply (Hno c cs ns0 m1 rest');
            [simpl in Hlen; lia | exact Hall | exact HP0 | reflexivity]. }
    simpl in H. destruct s as [|c s'].
    { apply Hstop; [exact H|]. intros; discriminate. }
    destruct (accepts a c) eqn:Hc.
    2:{ apply Hstop; [exact H|].
        intros c0 cs ns0 m1 rest' _ Hall _ E. injection E as <- _.
        inversion Hall; congruence. }
    destruct (greedy a k (Nat.pred lo) hi s') as [m1|] eqn:Hg.
    2:{ apply Hstop; [exact H|].
        intros c0 cs ns0 m0 rest' Hlen Hall HP0 E.
        injection E as _ E. inversion Hall; subst.
        destruct (greedy_complete p k a Hcompl hi (Nat.pred lo) cs m0 rest')
          as [x Hx];
          [lia | assumption | exact (Parse_Matches _ _ _ HP0) |].
        rewrite <- app_assoc in Hg. rewrite Hx in Hg. discriminate. }
    injection H as <-.
    destruct (IH _ _ _ Hg) as (ns & HP & Hmax).
    inversion HP as [| |a' lo' hi' p' cs ns0 m0 Hlen Hall HP0]; subst.
    exists (S (List.length cs) :: ns0). split.
    + apply (P_rep a lo (S hi) p (c :: cs) ns0 m0);
        [simpl; lia | constructor; assumption | exact HP0].
    + intros ns' m' rest' HP' E.
      inversion HP' as [| |a' lo' hi' p' cs' ns1 m1' Hlen' Hall' HP1]; subst.
      destruct cs' as [|c' cs'].
      * simpl. left. lia.
      * simpl in E. injection E as _ E.
        pose proof (Forall_inv_tail Hall') as Hall''.
        assert (lex_le (List.length cs' :: ns1) (List.length cs :: ns0))
          as Hle.
        { apply (Hmax _ (cs' ++ m1') rest'); [|exact E].
          apply P_rep; [simpl in Hlen'; lia | assumption | exact HP1]. }
        simpl in Hle |- *. destruct Hle as [Hlt|[-> Hle]];
          [left; lia | right; auto].
Qed.

Lemma match_here_best (p : list item) : k_best p (match_here p).
Proof.
  induction p as [|[a|a lo hi] p IH]; intros s m H.
  - injection H as <-. exists []. split; [constructor|].
    intros ns' m' rest' HP' _. inversion HP'. exact I.
  - simpl in H. destruct s as [|c s']; [discriminate|].
    destruct (accepts a c) eqn:Hc; [|discriminate].
    destruct (match_here p s') as [m1|] eqn:Hm; [|discriminate].
    injection H as <-. destruct (IH _ _ Hm) as (ns & HP & Hmax).
    exists ns. split; [now constructor|].
    intros ns' m' rest' HP' E.
    inversion HP' as [|a' c' p' ns0 m0 Hc' HP0|]; subst.
    simpl in E. injection E as _ E. exact (Hmax _ _ _ HP0 E).
  - simpl in H.
    exact (greedy_best p (match_here p) a IH (match_here_complete p)
             hi lo s m H).
Qed.

(** Where [search] finds its match. *)
Lemma search_position (p : list item) :
  forall s m, search p s = Some m ->
    exists pre s0,
      s = pre ++ s0 /\ match_here p s0 = Some m /\
      forall pre' m' post',
        s = pre' ++ m' ++ post' -> Matches p m' ->
        (List.length pre <= List.length pre')%nat.
Proof.
  induction s as [|c s IH]; intros m H.
  - simpl in H. destruct (match_here p []) as [m0|] eqn:Hm; [|discriminate].
    injection H as ->. exists [], []. split; [reflexivity|].
    split; [exact Hm|]. intros; simpl; lia.
  - simpl in H. destruct (match_here p (c :: s)) as [m0|] eqn:Hm.
    + injection H as ->. exists [], (c :: s). split; [reflexivity|].
      split; [exact Hm|]. intros; simpl; lia.
    + destruct (IH _ H) as (pre & s0 & E & Hm0 & Hmin).
      exists (c :: pre), s0. split; [simpl; now rewrite E|].
      split; [exact Hm0|].
      intros pre' m' post' E' HM'. destruct pre' as [|c' pre'].
      * simpl in E'. rewrite E' in Hm.
        destruct (match_here_complete p m' post' HM') as [x Hx].
        rewrite Hx in Hm. discriminate.
      * simpl in E'. injection E' as _ E'. simpl.
        specialize (Hmin _ _ _ E' HM'). lia.
Qed.

Lemma ip_pattern_quad_parse (ns : list nat) (m : list ascii) :
  Parse ip_pattern ns m -> quad_parse not_newline (text m) ns.
Proof.
  unfold ip_pattern. intros H.
  inversion H as [| |? ? ? ? d1 n1 m1 L1 A1 H1]; subst; clear H.
  inversion H1 as [|? s1 ? ? m2 S1 H2|]; subst; clear H1.
  inversion H2 as [| |? ? ? ? d2 n2 m3 L2 A2 H3]; subst; clear H2.
  inversion H3 as [|? s2 ? ? m4 S2 H4|]; subst; clear H3.
  inversion H4 as [| |? ? ? ? d3 n3 m5 L3 A3 H5]; subst; clear H4.
  inversion H5 as [|? s3 ? ? m6 S3 H6|]; subst; clear H5.
  inversion H6 as [| |? ? ? ? d4 n4 m7 L4 A4 H7]; subst; clear H6.
  inversion H7; subst; clear H7.
  rewrite app_nil_r, !text_app, !text_cons, !text_app, !text_cons,
    !text_app, !text_cons.
  exists (text d1), s1, (text d2), s2, (text d3), s3, (text d4).
  split; [reflexivity|].
  repeat (split; [first [ apply digits13_text; assumption
                        | apply not_newline_accepts; assumption ]|]).
  now rewrite <- !length_chars, !chars_text.
Qed.

Lemma quad_parse_ip_pattern (m : string) (ns : list nat) :
  quad_parse not_newline m ns -> Parse ip_pattern ns (chars m).
Proof.
  intros (d1 & s1 & d2 & s2 & d3 & s3 & d4 & -> & H1 & H2 & H3 & H4
          & S1 & S2 & S3 & ->).
  apply digits13_chars in H1, H2, H3, H4.
  destruct H1 as [L1 A1], H2 as [L2 A2], H3 as [L3 A3], H4 as [L4 A4].
  apply not_newline_accepts in S1, S2, S3.
  rewrite chars_app. cbn [chars list_ascii_of_string].
  fold (chars (d2 +:+ String s2 (d3 +:+ String s3 d4))).
  rewrite chars_app. cbn [chars list_ascii_of_string].
  fold (chars (d3 +:+ String s3 d4)).
  rewrite chars_app. cbn [chars list_ascii_of_string]. fold (chars d4).
  rewrite <- !length_chars. unfold ip_pattern.
  apply P_rep; [assumption..|]. apply P_one; [assumption|].
  apply P_rep; [assumption..|]. apply P_one; [assumption|].
  apply P_rep; [assumption..|]. apply P_one; [assumption|].
  rewrite <- (app_nil_r (chars d4)) at 2.
  apply P_rep; [assumption..|]. constructor.
Qed.

Lemma quad_parse_dotted_quad (sep : ascii -> Prop) (m : string)
    (ns : list nat) :
  quad_parse sep m ns -> dotted_quad sep m.
Proof.
  intros (d1 & s1 & d2 & s2 & d3 & s3 & d4 & E & H1 & H2 & H3 & H4
          & S1 & S2 & S3 & _).
  exists d1, s1, d2, s2, d3, s3, d4. auto 10.
Qed.

Lemma quad_parse_length (sep : ascii -> Prop) (m : string) (ns : list nat) :
  quad_parse sep m ns -> String.length m = (list_sum ns + 3)%nat.
Proof.
  intros (d1 & s1 & d2 & s2 & d3 & s3 & d4 & -> & _ & _ & _ & _
          & _ & _ & _ & ->).
  rewrite <- !length_chars, chars_app. cbn [chars list_ascii_of_string].
  fold (chars (d2 +:+ String s2 (d3 +:+ String s3 d4))).
  rewrite chars_app. cbn [chars list_ascii_of_string].
  fold (chars (d3 +:+ String s3 d4)).
  rewrite chars_app. cbn [chars list_ascii_of_string]. fold (chars d4).
  repeat (rewrite ?length_app; cbn [List.length list_sum fold_right]). lia.
Qed.

(** What [extract_ip] returns is the first match. *)
Lemma extract_ip_is_first_match (title ip : string) :
  extract_ip title = Some ip -> first_match title ip.
Proof.
  unfold extract_ip.
  destruct (search ip_pattern (chars title)) as [m|] eqn:Hs; [|discriminate].
  intros [= <-].
  destruct (search_position _ _ _ Hs) as (pre & s0 & E & Hm & Hmin).
  destruct (match_here_best _ _ _ Hm) as (ns & HP & Hmax).
  destruct (match_here_sound _ _ _ Hm) as [_ [post E0]].
  exists (text pre), ns. split; [|split; [|split]].
  - exists (text post). apply chars_inj.
    now rewrite !chars_app, !chars_text, E, E0.
  - now apply ip_pattern_quad_parse.
  - intros pre' m' Hocc Hq.
    destruct (occurs_at_chars _ _ _ Hocc) as [post' E'].
    specialize (Hmin _ _ _ E' (dotted_quad_ip_pattern _ Hq)).
    now rewrite <- !length_chars, chars_text.
  - intros m' ns' Hocc Hq.
    destruct (occurs_at_chars _ _ _ Hocc) as [post' E'].
    rewrite chars_text, E in E'. apply app_inv_head in E'.
    exact (Hmax _ _ _ (quad_parse_ip_pattern _ _ Hq) E').
Qed.

(** A title has at most one first match. *)
Lemma first_match_unique (title ip ip' : string) :
  first_match title ip -> first_match title ip' -> ip' = ip.
Proof.
  intros (pre & ns & Hocc & Hq & Hmin & Hmax)
         (pre' & ns' & Hocc' & Hq' & Hmin' & Hmax').
  pose proof (Hmin _ _ Hocc' (quad_parse_dotted_quad _ _ _ Hq')) as L1.
  pose proof (Hmin' _ _ Hocc (quad_parse_dotted_quad _ _ _ Hq)) as L2.
  destruct (occurs_at_chars _ _ _ Hocc) as [post E].
  destruct (occurs_at_chars _ _ _ Hocc') as [post' E'].
  rewrite E in E'.
  apply app_inj_1 in E' as [Epre E'];
    [|rewrite !length_chars; lia].
  apply chars_inj in Epre. subst pre'.
  assert (ns' = ns) as ->.
  { apply lex_le_antisym;
      [exact (Hmax _ _ Hocc' Hq') | exact (Hmax' _ _ Hocc Hq)]. }
  apply app_inj_1 in E' as [Eip _].
  - symmetry. now apply chars_inj.
  - rewrite !length_chars.
    now rewrite (quad_parse_length _ _ _ Hq), (quad_parse_length _ _ _ Hq').
Qed.

End Preference.

(** ** IP extraction *)

Section ExtractIp.
Import Text Re.

(** C2, as the code has it: when a title contains a dotted quad whose
    separators are any characters other than a line feed, [extract_ip]
    returns the first one, the match a search with the pattern reports:
    it starts at the earliest position where a dotted quad starts and,
    of those starting there, takes the longest digit runs, earlier runs
    first.  That substring is unique.  When the title contains no dotted
    quad, [extract_ip] returns [None].  Octets are not range-checked. *)
Theorem extract_ip_first_match (title : string) :
  match extract_ip title with
  | Some ip =>
      first_match title ip /\
      forall ip', first_match title ip' -> ip' = ip
  | None =>
      forall pre m, occurs_at title pre m -> ~ dotted_quad not_newline m
  end.
Proof.
  destruct (extract_ip title) as [ip|] eqn:He.
  - pose proof (extract_ip_is_first_match _ _ He) as Hf.
    split; [exact Hf|]. intros ip' Hf'. exact (first_match_unique _ _ _ Hf Hf').
  - unfold extract_ip in He.
    destruct (search ip_pattern (chars title)) as [m|] eqn:Hs; [discriminate|].
    intros pre m Hocc Hq.
    destruct (occurs_at_chars _ _ _ Hocc) as [post E].
    exact (search_none _ _ Hs _ _ _ E (dotted_quad_ip_pattern _ Hq)).
Qed.

(** C2 as stated fails: with a line feed between two digit runs the
    title holds a dotted quad in the claim's sense (any separator), yet
    nothing is extracted. *)
Lemma extract_ip_newline_separator :
  occurs_at Sample.title_with_newline "" Sample.title_with_newline /\
  dotted_quad any_char Sample.title_with_newline /\
  extract_ip Sample.title_with_newline = None.
Proof.
  split; [|split].
  - exists ""%string. reflexivity.
  - exists "1"%string, "010"%char, "2"%string, "."%char, "3"%string,
      "."%char, "4"%string.
    split; [reflexivity|].
    unfold digits13, any_char.
    repeat split; simpl; try lia; repeat constructor.
  - reflexivity.
Qed.

End ExtractIp.

(** ** The effect monad *)

Section MonadFacts.
Context {R : Type}.

Lemma bind_ok {A B} (m : M R A) (f : A -> M R B) (w w' : world R) (a : A) :
  m w = (Ok a, w') -> bind m f w = f a w'.
Proof. unfold bind. now intros ->. Qed.

Lemma try_ok {A} (m : M R A) (h : exn -> M R A) (w w' : world R) (a : A) :
  m w = (Ok a, w') -> try_except m h w = (Ok a, w').
Proof. unfold try_except. now intros ->. Qed.

Lemma bind_lift_ok {A B} (a : A) (f : A -> M R B) :
  bind (lift (Ok a)) f = f a.
Proof. reflexivity. Qed.

Lemma bind_lift_raise {A B} (e : exn) (f : A -> M R B) :
  bind (lift (Raise e)) f = raise e.
Proof. reflexivity. Qed.

Lemma bind_ret {A B} (a : A) (f : A -> M R B) : bind (ret a) f = f a.
Proof. reflexivity. Qed.

Lemma getitem_head {A} (x : A) (l : list A) : py_getitem (x :: l) 0 = Ok x.
Proof. reflexivity. Qed.

End MonadFacts.

(** ** The classifier *)

Lemma dossier_title_phrase (ip : string) :
  dossier_title (Some ip) = Ok (dossier_phrase ip).
Proof. reflexivity. Qed.

(** C1 at an absent IP: [main] passes on the [None] that
    [get_ticket_title_ip] returned, and then the lengths do not decide
    alone.  With a primary ticket and no dossier, building the title
    raises [TypeError] on [str + None] before any update, so none of the
    new-dossier steps is performed; with no primary ticket a verbose run
    raises the same way while building its log line. *)
Theorem handle_results_without_ip {R : Type} (client : Remote R)
    (verbose : bool) (p : Z) (rest secondary : list Z) (w : world R) :
  handle_results client verbose (p :: rest) [] None w = (Raise TypeError, w) /\
  handle_results client true [] secondary None w = (Raise TypeError, w).
Proof. split; reflexivity. Qed.

(** ** Remote failures *)

Section Failures.
Context {R : Type}.
Variable client : Remote R.
Variable verbose : bool.

(** A failed update reaches the handler, whose message cannot be built. *)
Lemma guarded_update_fails (prefix : string) (id : Z) (u : upd) (w : world R)
    (e : exn) (r' : R) :
  TicketUpdate client id u (remote w) = (Raise e, r') ->
  try_except (tc_TicketUpdate client id u) (log_exception prefix) w
  = (Raise TypeError,
     {| remote := r'; calls := calls w ++ [CUpdate id u]; logs := logs w |}).
Proof.
  intros H. unfold try_except, tc_TicketUpdate, remote_call. now rewrite H.
Qed.

Lemma search_fails (queues : list Z) (title prefix : string) (w : world R)
    (e : exn) (r' : R) :
  TicketSearch client queues title (remote w) = (Raise e, r') ->
  (tickets <- try_except
     (r <- tc_TicketSearch client queues title ;; ret (Some r))
     (fun e => log_exception prefix e ;; ret None) ;;
   return_local tickets) w
  = (Raise TypeError,
     {| remote := r'; calls := calls w ++ [CSearch queues title];
        logs := logs w |}).
Proof.
  intros H. unfold bind, try_except, tc_TicketSearch, remote_call.
  now rewrite H.
Qed.

End Failures.

Section ScheduledFailures.
Variable verbose : bool.
Variables (d : gmap Z ticket) (e : exn) (fs : list (option exn)).
Variables (cs : list call) (ls : list (level * string)).

Lemma when_info (msg : string) (fs' : list (option exn)) :
  when verbose (log_at Info msg) (Otrs.mk d fs' cs ls)
  = (Ok tt, Otrs.mk d fs' cs (ls ++ info verbose msg)).
Proof.
  unfold info. destruct verbose; simpl; [reflexivity|].
  unfold ret, Otrs.mk. now rewrite app_nil_r.
Qed.

(** C4 at a failing update: whichever of the five mutations is running
    when the remote update raises, the handler's own [str + e] raises
    [TypeError]; no error line is written and the exception leaves the
    operation. *)
Theorem mutation_failure_escapes (id queue : Z) (title ip : string) :
  update_ticket_queue Otrs.service verbose id queue
    (Otrs.mk d (Some e :: fs) cs ls)
  = (Raise TypeError,
     Otrs.mk d fs (cs ++ [CUpdate id (ByTicket (T_QueueIDs [queue]))])
       (ls ++ info verbose ("Updating queue of ticket " +:+ str_Z id
                            +:+ " with '" +:+ str_Z queue +:+ "'!"))) /\
  update_ticket_title Otrs.service verbose id title
    (Otrs.mk d (Some e :: fs) cs ls)
  = (Raise TypeError,
     Otrs.mk d fs (cs ++ [CUpdate id (ByTicket (T_Title title))])
       (ls ++ info verbose ("Updating title of ticket " +:+ str_Z id
                    +:+ " with title '" +:+ title +:+ "'!"))) /\
  update_ticket_ip Otrs.service verbose id ip
    (Otrs.mk d (Some e :: fs) cs ls)
  = (Raise TypeError,
     Otrs.mk d fs (cs ++ [CUpdate id (ByTicket T_Empty)])
       (ls ++ info verbose ("Updating IP address of ticket " +:+ str_Z id
                    +:+ " with '" +:+ ip +:+ "'!"))) /\
  close_ticket Otrs.service verbose id (Otrs.mk d (Some e :: fs) cs ls)
  = (Raise TypeError,
     Otrs.mk d fs (cs ++ [CUpdate id (ByTicket (T_State "resolved"))])
       (ls ++ info verbose ("Closing ticket " +:+ str_Z id))) /\
  open_ticket Otrs.service verbose id (Otrs.mk d (Some e :: fs) cs ls)
  = (Raise TypeError,
     Otrs.mk d fs (cs ++ [CUpdate id (ByTicket (T_State "Open"))])
       (ls ++ info verbose ("(Re)opening ticket " +:+ str_Z id))).
Proof.
  repeat split;
    (unfold update_ticket_queue, update_ticket_title, update_ticket_ip,
       close_ticket, open_ticket;
     erewrite bind_ok by apply when_info;
     erewrite guarded_update_fails by reflexivity;
     reflexivity).
Qed.

(** C3 at a failing search: the handler of either search raises
    [TypeError] while building its message, so nothing is logged and no
    result, empty or otherwise, is returned. *)
Theorem search_failure_escapes (ip : option string) :
  primary_search Otrs.service ip (Otrs.mk d (Some e :: fs) cs ls)
  = (Raise TypeError,
     Otrs.mk d fs (cs ++ [CSearch primary_queues (primary_title ip)]) ls) /\
  secondary_search Otrs.service ip (Otrs.mk d (Some e :: fs) cs ls)
  = (Raise TypeError,
     Otrs.mk d fs (cs ++ [CSearch secondary_queues (secondary_title ip)]) ls).
Proof.
  split; unfold primary_search, secondary_search;
    erewrite search_fails by reflexivity; reflexivity.
Qed.

End ScheduledFailures.

(** ** What a classification call may touch *)

Section Preserves.
Context {R : Type}.
Variable client : Remote R.
Variable verbose : bool.
Variable I : world R -> world R -> Prop.
Variable ok : Z -> Prop.

Hypothesis I_refl : forall w, I w w.
Hypothesis I_trans : forall a b c, I a b -> I b c -> I a c.
Hypothesis I_log : forall lv msg w, I w (snd (log_at lv msg w)).
Hypothesis I_get : forall id w, I w (snd (tc_TicketGet client id w)).
Hypothesis I_update :
  forall id u w, ok id -> I w (snd (tc_TicketUpdate client id u w)).

Lemma preserves_ret {A} (a : A) : preserves I (ret a).
Proof. intros w. apply I_refl. Qed.

Lemma preserves_raise {A} (e : exn) : preserves I (@raise R A e).
Proof. intros w. apply I_refl. Qed.

Lemma preserves_lift {A} (r : result A) : preserves I (lift r).
Proof. intros w. apply I_refl. Qed.

Lemma preserves_log (lv : level) (msg : string) : preserves I (log_at lv msg).
Proof. intros w. apply I_log. Qed.

Lemma preserves_bind {A B} (m : M R A) (f : A -> M R B) :
  preserves I m -> (forall a, preserves I (f a)) -> preserves I (bind m f).
Proof.
  intros Hm Hf w. unfold bind. specialize (Hm w).
  destruct (m w) as [[a|e] w']; simpl in *; [|exact Hm].
  eapply I_trans; [exact Hm | apply Hf].
Qed.

Lemma preserves_try {A} (m : M R A) (h : exn -> M R A) :
  preserves I m -> (forall e, preserves I (h e)) ->
  preserves I (try_except m h).
Proof.
  intros Hm Hh w. unfold try_except. specialize (Hm w).
  destruct (m w) as [[a|e] w']; simpl in *; [exact Hm|].
  eapply I_trans; [exact Hm | apply Hh].
Qed.

Lemma preserves_when (b : bool) (m : M R unit) :
  preserves I m -> preserves I (when b m).
Proof. destruct b; simpl; [trivial | intros _; apply preserves_ret]. Qed.

Lemma preserves_for_each {A} (l : list A) (body : A -> M R unit) :
  (forall x, preserves I (body x)) -> preserves I (for_each l body).
Proof.
  intros Hb. induction l as [|x l IH]; simpl.
  - apply preserves_ret.
  - apply preserves_bind; [apply Hb | intros _; exact IH].
Qed.

Lemma preserves_log_exception (prefix : string) (e : exn) :
  preserves I (log_exception prefix e).
Proof.
  apply preserves_bind; [apply preserves_lift | intros; apply preserves_log].
Qed.

Create HintDb preserves.
Hint Resolve preserves_ret preserves_raise preserves_lift preserves_log
  preserves_when preserves_log_exception : preserves.

Lemma preserves_guarded_update (prefix : string) (id : Z) (u : upd) :
  ok id ->
  preserves I (try_except (tc_TicketUpdate client id u)
                 (log_exception prefix)).
Proof.
  intros Hid. apply preserves_try; [|auto with preserves].
  intros w. now apply I_update.
Qed.

Lemma preserves_update_ticket_title (id : Z) (title : string) :
  ok id -> preserves I (update_ticket_title client verbose id title).
Proof.
  intros Hid. apply preserves_bind; [auto with preserves|].
  intros _. now apply preserves_guarded_update.
Qed.

Lemma preserves_update_ticket_queue (id queue : Z) :
  ok id -> preserves I (update_ticket_queue client verbose id queue).
Proof.
  intros Hid. apply preserves_bind; [auto with preserves|].
  intros _. now apply preserves_guarded_update.
Qed.

Lemma preserves_close_ticket (id : Z) :
  ok id -> preserves I (close_ticket client verbose id).
Proof.
  intros Hid. apply preserves_bind; [auto with preserves|].
  intros _. now apply preserves_guarded_update.
Qed.

Lemma preserves_open_ticket (id : Z) :
  ok id -> preserves I (open_ticket client verbose id).
Proof.
  intros Hid. apply preserves_bind; [auto with preserves|].
  intros _. now apply preserves_guarded_update.
Qed.

Lemma preserves_get_ticket (id : Z) :
  preserves I (get_ticket client verbose id).
Proof.
  unfold get_ticket. destruct (truthy id).
  - apply preserves_bind; [|auto with preserves].
    apply preserves_try; [|auto with preserves]. intros w. apply I_get.
  - apply preserves_bind; auto with preserves.
Qed.

Lemma preserves_attr {A} (t : option ticket) (f : ticket -> A) :
  preserves I (@attr R A t f).
Proof. destruct t; simpl; auto with preserves. Qed.

Lemma preserves_merge_tickets (t1 t2 : Z) :
  ok t2 -> preserves I (merge_tickets client verbose t1 t2).
Proof.
  intros Hid. unfold merge_tickets.
  apply preserves_bind; [auto with preserves | intros _].
  apply preserves_bind; [apply preserves_get_ticket | intros ticket1].
  apply preserves_bind; [apply preserves_get_ticket | intros ticket2].
  apply preserves_bind.
  { destruct verbose; [|auto with preserves].
    repeat (apply preserves_bind;
            [first [apply preserves_attr | apply preserves_log] | intros ?]).
    apply preserves_log. }
  intros _. apply preserves_bind; [apply preserves_attr | intros arts].
  apply preserves_for_each. intros art.
  apply preserves_bind; [auto with preserves | intros i].
  apply preserves_bind; [auto with preserves | intros t_upd].
  intros w. now apply I_update.
Qed.

Lemma preserves_handle_results (primary secondary : list Z)
    (ip : option string) :
  (forall id, targets primary secondary id -> ok id) ->
  preserves I (handle_results client verbose primary secondary ip).
Proof.
  intros Hok. unfold handle_results.
  destruct primary as [|p primary]; simpl.
  { destruct verbose; [|auto with preserves].
    apply preserves_bind; [auto with preserves | intros; apply preserves_log]. }
  assert (ok p) as Hp by (apply Hok; now left).
  destruct secondary as [|s [|s' secondary]]; simpl.
  - destruct (dossier_title ip) as [title|e].
    + rewrite !getitem_head, !bind_lift_ok.
      apply preserves_bind;
        [now apply preserves_update_ticket_title | intros _].
      apply preserves_bind;
        [now apply preserves_update_ticket_queue | intros _].
      now apply preserves_open_ticket.
    + rewrite bind_lift_raise. apply preserves_raise.
  - assert (ok s) as Hs by (apply Hok; now right).
    rewrite !getitem_head, !bind_lift_ok.
    apply preserves_bind; [now apply preserves_merge_tickets | intros _].
    apply preserves_bind; [now apply preserves_close_ticket | intros _].
    now apply preserves_open_ticket.
  - apply preserves_log.
Qed.

End Preserves.

Section Targets.
Context {R : Type}.
Variable client : Remote R.
Variable ok : Z -> Prop.

Lemma only_updates_refl (w : world R) : only_updates ok w w.
Proof. exists []. split; [now rewrite app_nil_r | intros ? ? []]. Qed.

Lemma only_updates_trans (a b c : world R) :
  only_updates ok a b -> only_updates ok b c -> only_updates ok a c.
Proof.
  intros (cs1 & E1 & H1) (cs2 & E2 & H2). exists (cs1 ++ cs2). split.
  - now rewrite E2, E1, app_assoc.
  - intros id u Hin. apply in_app_or in Hin as [Hin|Hin]; eauto.
Qed.

Lemma only_updates_log (lv : level) (msg : string) (w : world R) :
  only_updates ok w (snd (log_at lv msg w)).
Proof. exists []. split; [simpl; now rewrite app_nil_r | intros ? ? []]. Qed.

Lemma only_updates_call {A} (c : call) (op : R -> result A * R)
    (w : world R) :
  (forall id u, c = CUpdate id u -> ok id) ->
  only_updates ok w (snd (remote_call c op w)).
Proof.
  intros Hc. exists [c]. unfold remote_call.
  destruct (op (remote w)) as [r rem']. split; [reflexivity|].
  intros id u [E|[]]. exact (Hc id u E).
Qed.

End Targets.

(** C9: in one call of [handle_results], every update sent to the remote
    is addressed to the first primary ticket or, when it is the single
    secondary match, to the dossier; no other ticket of the primary list
    is the target of any call. *)
Theorem handle_results_targets {R : Type} (client : Remote R)
    (verbose : bool) (primary secondary : list Z) (ip : option string)
    (w : world R) :
  exists cs,
    calls (snd (handle_results client verbose primary secondary ip w))
    = calls w ++ cs /\
    forall id u, In (CUpdate id u) cs -> targets primary secondary id.
Proof.
  apply (preserves_handle_results client verbose
           (only_updates (targets primary secondary))
           (targets primary secondary)).
  - apply only_updates_refl.
  - apply only_updates_trans.
  - apply only_updates_log.
  - intros id w0. apply only_updates_call. discriminate.
  - intros id u w0 Hid. apply only_updates_call. now intros ? ? [= <- _].
  - trivial.
Qed.

(** On the reference service the same holds of the stored tickets: a
    classification call leaves every ticket that is not a target as it
    was. *)
Lemma handle_results_frame (verbose : bool) (primary secondary : list Z)
    (ip : option string) (w : world Otrs.state) :
  untouched (targets primary secondary) w
    (snd (handle_results Otrs.service verbose primary secondary ip w)).
Proof.
  apply (preserves_handle_results Otrs.service verbose
           (untouched (targets primary secondary))
           (targets primary secondary)).
  - now intros w0 id _.
  - intros a b c Hab Hbc id Hid. now rewrite (Hbc id Hid), (Hab id Hid).
  - now intros lv msg w0 id _.
  - intros id w0 id' _. unfold tc_TicketGet, remote_call. simpl.
    unfold Otrs.answer, Otrs.do_get.
    destruct (Otrs.faults (remote w0)) as [|[e|] fs]; simpl;
      try reflexivity;
      destruct (Otrs.db (remote w0) !! id); reflexivity.
  - intros id u w0 Hid id' Hid'. unfold tc_TicketUpdate, remote_call. simpl.
    unfold Otrs.answer, Otrs.do_update.
    assert (id <> id') as Hne by (intros ->; contradiction).
    destruct (Otrs.faults (remote w0)) as [|[e|] fs]; simpl;
      try reflexivity;
      (destruct (Otrs.db (remote w0) !! id); simpl;
       [now rewrite lookup_insert_ne | reflexivity]).
  - trivial.
Qed.

(** ** Runs against a service that answers *)

Section Up.
Variable verbose : bool.

Lemma up_update (d : gmap Z ticket) (cs : list call)
    (ls : list (level * string)) (id : Z) (u : upd) (t : ticket) :
  d !! id = Some t ->
  tc_TicketUpdate Otrs.service id u (Otrs.mk d [] cs ls)
  = (Ok tt,
     Otrs.mk (<[id := Otrs.apply_upd u t]> d) [] (cs ++ [CUpdate id u]) ls).
Proof.
  intros H. unfold tc_TicketUpdate, remote_call. simpl.
  unfold Otrs.answer, Otrs.do_update. simpl. now rewrite H.
Qed.

Lemma up_get (d : gmap Z ticket) (cs : list call)
    (ls : list (level * string)) (id : Z) (t : ticket) :
  d !! id = Some t ->
  tc_TicketGet Otrs.service id (Otrs.mk d [] cs ls)
  = (Ok t, Otrs.mk d [] (cs ++ [CGet id]) ls).
Proof.
  intros H. unfold tc_TicketGet, remote_call. simpl.
  unfold Otrs.answer, Otrs.do_get. simpl. now rewrite H.
Qed.

Lemma up_get_ticket (d : gmap Z ticket) (cs : list call)
    (ls : list (level * string)) (id : Z) (t : ticket) :
  id <> 0 -> d !! id = Some t ->
  get_ticket Otrs.service verbose id (Otrs.mk d [] cs ls)
  = (Ok (Some t), Otrs.mk d [] (cs ++ [CGet id]) ls).
Proof.
  intros Hid H. unfold get_ticket, truthy.
  destruct (Z.eqb_spec id 0) as [|_]; [contradiction|]. simpl.
  erewrite bind_ok; [reflexivity|].
  erewrite try_ok; [reflexivity|]. now apply up_get.
Qed.

(** One of the guarded single updates, verbose line included. *)
Lemma up_guarded (msg prefix : string) (d : gmap Z ticket) (cs : list call)
    (ls : list (level * string)) (id : Z) (u : upd) (t : ticket) :
  d !! id = Some t ->
  (when verbose (log_at Info msg) ;;
   try_except (tc_TicketUpdate Otrs.service id u) (log_exception prefix))
    (Otrs.mk d [] cs ls)
  = (Ok tt,
     Otrs.mk (<[id := Otrs.apply_upd u t]> d) [] (cs ++ [CUpdate id u])
       (ls ++ info verbose msg)).
Proof.
  intros H. erewrite bind_ok by apply when_info.
  erewrite try_ok; [reflexivity|]. now apply up_update.
Qed.

Lemma index_getitem {A} `{EqDecision A} (x : A) (l : list A) :
  In x l ->
  exists i, py_index x l = Ok i /\ py_getitem l i = Ok x.
Proof.
  induction l as [|y l IH]; intros Hin; [destruct Hin|]. simpl.
  destruct (decide (y = x)) as [->|Hne].
  - exists O. split; reflexivity.
  - destruct Hin as [Heq|Hin]; [contradiction|].
    destruct (IH Hin) as (i & -> & Hi). exists (S i). split; [reflexivity|].
    exact Hi.
Qed.

Lemma add_articles_nil (t : ticket) : Otrs.add_articles t [] = t.
Proof. destruct t. unfold Otrs.add_articles; simpl. now rewrite app_nil_r. Qed.

Lemma add_articles_cons (t : ticket) (a : article) (arts : list article) :
  Otrs.add_articles (Otrs.apply_upd (ByArticle a) t) arts
  = Otrs.add_articles t (a :: arts).
Proof.
  unfold Otrs.add_articles; simpl. now rewrite <- app_assoc.
Qed.

(** The loop of [merge_tickets]: one update per article, in order. *)
Lemma up_merge_loop (all : list article) (t2 : Z) :
  forall (arts : list article) (d : gmap Z ticket) (cs : list call)
         (ls : list (level * string)) (T2 : ticket),
    (forall a, In a arts -> In a all) ->
    d !! t2 = Some T2 ->
    for_each arts (fun art =>
      i <- lift (py_index art all) ;;
      t_upd <- lift (py_getitem all i) ;;
      tc_TicketUpdate Otrs.service t2 (ByArticle t_upd))
      (Otrs.mk d [] cs ls)
    = (Ok tt,
       Otrs.mk (<[t2 := Otrs.add_articles T2 arts]> d) []
         (cs ++ List.map (fun a => CUpdate t2 (ByArticle a)) arts) ls).
Proof.
  induction arts as [|a arts IH]; intros d cs ls T2 Hsub H2.
  - simpl. unfold ret. rewrite add_articles_nil, app_nil_r.
    now rewrite insert_id.
  - cbn [for_each].
    destruct (index_getitem a all) as (i & Hi & Hg); [apply Hsub; now left|].
    rewrite Hi, bind_lift_ok, Hg, bind_lift_ok.
    erewrite bind_ok by (apply up_update; exact H2).
    erewrite IH.
    + rewrite insert_insert_eq, add_articles_cons. cbn [List.map].
      now rewrite <- app_assoc.
    + intros b Hb. apply Hsub. now right.
    + apply lookup_insert_eq.
Qed.

End Up.

(** ** Merging *)

(** Put the world of the goal back in [Otrs.mk] form. *)
Ltac fold_mk :=
  cbn [remote calls logs Otrs.mk];
  repeat match goal with
  | |- context [ {| remote := {| Otrs.db := ?d; Otrs.faults := ?f |};
                    calls := ?c; logs := ?l |} ] =>
      change {| remote := {| Otrs.db := d; Otrs.faults := f |};
                calls := c; logs := l |} with (Otrs.mk d f c l)
  end.

(** [merge_tickets] against a service that answers. *)
Lemma up_merge_tickets (verbose : bool) (d : gmap Z ticket)
    (cs : list call) (ls : list (level * string)) (t1 t2 : Z)
    (T1 T2 : ticket) :
  t1 <> 0 -> t2 <> 0 -> d !! t1 = Some T1 -> d !! t2 = Some T2 ->
  exists ls',
    merge_tickets Otrs.service verbose t1 t2 (Otrs.up d cs ls)
    = (Ok tt,
       Otrs.up (<[t2 := Otrs.add_articles T2 (Articles T1)]> d)
         (cs ++ [CGet t1; CGet t2]
             ++ List.map (fun a => CUpdate t2 (ByArticle a)) (Articles T1))
         ls').
Proof.
  intros H1 H2 L1 L2. unfold merge_tickets, Otrs.up.
  erewrite bind_ok by apply when_info.
  erewrite bind_ok by (apply up_get_ticket; eassumption).
  erewrite bind_ok by (apply up_get_ticket; eassumption).
  destruct verbose; cbn [attr];
    (erewrite bind_ok by reflexivity);
    rewrite bind_ret; fold_mk;
    (erewrite (up_merge_loop (Articles T1) t2 (Articles T1));
     [ eexists; rewrite <- !app_assoc; reflexivity
     | trivial
     | eassumption ]).
Qed.

(** C7: with both tickets on the service, [merge_tickets] fetches them
    and then sends exactly one update per article of the source, in the
    source's order, each appending that article to the destination; the
    destination ends with its original articles followed by the source's,
    and nothing else is changed. *)
Theorem merge_tickets_appends (verbose : bool) (d : gmap Z ticket)
    (cs : list call) (ls : list (level * string)) (t1 t2 : Z)
    (T1 T2 : ticket) :
  t1 <> 0 -> t2 <> 0 -> d !! t1 = Some T1 -> d !! t2 = Some T2 ->
  exists ls',
    merge_tickets Otrs.service verbose t1 t2 (Otrs.up d cs ls)
    = (Ok tt,
       Otrs.up (<[t2 := Otrs.add_articles T2 (Articles T1)]> d)
         (cs ++ [CGet t1; CGet t2]
             ++ List.map (fun a => CUpdate t2 (ByArticle a)) (Articles T1))
         ls').
Proof. apply up_merge_tickets. Qed.

Lemma merge_tickets_appends_witness :
  exists ls',
    merge_tickets Otrs.service true 100 50 (Otrs.up Sample.store_B [] [])
    = (Ok tt,
       Otrs.up
         (<[50 := Otrs.add_articles Sample.D50 (Articles Sample.P100)]>
            Sample.store_B)
         ([] ++ [CGet 100; CGet 50]
             ++ List.map (fun a => CUpdate 50 (ByArticle a))
                  (Articles Sample.P100))
         ls').
Proof.
  apply (merge_tickets_appends true Sample.store_B [] [] 100 50
           Sample.P100 Sample.D50);
    [lia | lia | reflexivity | reflexivity].
Defined.

(** ** The merge and new-dossier actions on stored tickets *)

Lemma up_close_ticket (verbose : bool) (d : gmap Z ticket) (cs : list call)
    (ls : list (level * string)) (id : Z) (t : ticket) :
  d !! id = Some t ->
  close_ticket Otrs.service verbose id (Otrs.mk d [] cs ls)
  = (Ok tt,
     Otrs.mk (<[id := Otrs.apply_upd (ByTicket (T_State "resolved")) t]> d) []
       (cs ++ [CUpdate id (ByTicket (T_State "resolved"))])
       (ls ++ info verbose ("Closing ticket " +:+ str_Z id))).
Proof. apply up_guarded. Qed.

Lemma up_open_ticket (verbose : bool) (d : gmap Z ticket) (cs : list call)
    (ls : list (level * string)) (id : Z) (t : ticket) :
  d !! id = Some t ->
  open_ticket Otrs.service verbose id (Otrs.mk d [] cs ls)
  = (Ok tt,
     Otrs.mk (<[id := Otrs.apply_upd (ByTicket (T_State "Open")) t]> d) []
       (cs ++ [CUpdate id (ByTicket (T_State "Open"))])
       (ls ++ info verbose ("(Re)opening ticket " +:+ str_Z id))).
Proof. apply up_guarded. Qed.

Lemma up_update_ticket_title (verbose : bool) (d : gmap Z ticket)
    (cs : list call) (ls : list (level * string)) (id : Z) (title : string)
    (t : ticket) :
  d !! id = Some t ->
  update_ticket_title Otrs.service verbose id title (Otrs.mk d [] cs ls)
  = (Ok tt,
     Otrs.mk (<[id := Otrs.apply_upd (ByTicket (T_Title title)) t]> d) []
       (cs ++ [CUpdate id (ByTicket (T_Title title))])
       (ls ++ info verbose ("Updating title of ticket " +:+ str_Z id
                            +:+ " with title '" +:+ title +:+ "'!"))).
Proof. apply up_guarded. Qed.

Lemma up_update_ticket_queue (verbose : bool) (d : gmap Z ticket)
    (cs : list call) (ls : list (level * string)) (id queue : Z)
    (t : ticket) :
  d !! id = Some t ->
  update_ticket_queue Otrs.service verbose id queue (Otrs.mk d [] cs ls)
  = (Ok tt,
     Otrs.mk (<[id := Otrs.apply_upd (ByTicket (T_QueueIDs [queue])) t]> d) []
       (cs ++ [CUpdate id (ByTicket (T_QueueIDs [queue]))])
       (ls ++ info verbose ("Updating queue of ticket " +:+ str_Z id
                            +:+ " with '" +:+ str_Z queue +:+ "'!"))).
Proof. apply up_guarded. Qed.

(** The merge branch against a service that answers. *)
Lemma up_merge_branch (verbose : bool) (d : gmap Z ticket)
    (cs : list call) (ls : list (level * string)) (p s : Z)
    (rest : list Z) (ip : option string) (P S : ticket) :
  p <> 0 -> s <> 0 -> d !! p = Some P -> d !! s = Some S ->
  let run :=
    handle_results Otrs.service verbose (p :: rest) [s] ip
      (Otrs.up d cs ls) in
  fst run = Ok tt /\
  calls (snd run)
  = cs ++ [CGet p; CGet s]
       ++ List.map (fun a => CUpdate s (ByArticle a)) (Articles P)
       ++ [CUpdate p (ByTicket (T_State "resolved"));
           CUpdate s (ByTicket (T_State "Open"))] /\
  (exists S',
     Otrs.db (remote (snd run)) !! s = Some S' /\
     State S' = "Open" /\ Articles S' = Articles S ++ Articles P) /\
  (p <> s ->
   exists P',
     Otrs.db (remote (snd run)) !! p = Some P' /\
     State P' = "resolved" /\ Articles P' = Articles P).
Proof.
  intros Hp Hs LP LS.
  destruct (up_merge_tickets verbose d cs ls p s P S Hp Hs LP LS)
    as [ls1 Hmerge].
  unfold handle_results. cbn [List.length Nat.ltb Nat.leb].
  rewrite !getitem_head, !bind_lift_ok. unfold Otrs.up in *.
  erewrite bind_ok by exact Hmerge.
  set (d1 := <[s := Otrs.add_articles S (Articles P)]> d).
  assert (exists Tp, d1 !! p = Some Tp /\
                     (p <> s -> Tp = P) /\
                     (p = s -> Tp = Otrs.add_articles S (Articles P)))
    as (Tp & LTp & HTp & HTp').
  { destruct (decide (p = s)) as [->|Hne].
    - eexists. split; [apply lookup_insert_eq|]. split; congruence.
    - exists P. split; [unfold d1; now rewrite lookup_insert_ne|].
      split; congruence. }
  erewrite bind_ok by (apply up_close_ticket; exact LTp).
  set (d2 := <[p := _]> d1).
  assert (exists Ts, d2 !! s = Some Ts /\
                     Articles Ts = Articles S ++ Articles P)
    as (Ts & LTs & HTs).
  { unfold d2. destruct (decide (p = s)) as [->|Hne].
    - eexists. split; [apply lookup_insert_eq|].
      now rewrite (HTp' eq_refl).
    - eexists. split.
      + rewrite lookup_insert_ne by congruence. apply lookup_insert_eq.
      + reflexivity. }
  erewrite up_open_ticket by exact LTs.
  cbn [fst snd Otrs.mk remote calls Otrs.db]. split; [reflexivity|].
  split; [now rewrite <- !app_assoc|]. split.
  - eexists. split; [apply lookup_insert_eq|]. split; [reflexivity|].
    exact HTs.
  - intros Hne. exists (Otrs.apply_upd (ByTicket (T_State "resolved")) Tp).
    split.
    + rewrite lookup_insert_ne by congruence. apply lookup_insert_eq.
    + rewrite (HTp Hne). split; reflexivity.
Qed.

(** C6: with one dossier [s] found for the first primary ticket [p],
    the calls go out in this order: both tickets are fetched, each
    article of [p] is appended to [s], [p] is set to resolved, [s] is set
    to Open.  Afterwards the dossier is Open and holds its own articles
    followed by those of [p], and [p] (when it is another ticket) is
    resolved. *)
Theorem handle_results_merge_order (verbose : bool) (d : gmap Z ticket)
    (cs : list call) (ls : list (level * string)) (p s : Z)
    (rest : list Z) (ip : option string) (P S : ticket) :
  p <> 0 -> s <> 0 -> d !! p = Some P -> d !! s = Some S ->
  let run :=
    handle_results Otrs.service verbose (p :: rest) [s] ip
      (Otrs.up d cs ls) in
  fst run = Ok tt /\
  calls (snd run)
  = cs ++ [CGet p; CGet s]
       ++ List.map (fun a => CUpdate s (ByArticle a)) (Articles P)
       ++ [CUpdate p (ByTicket (T_State "resolved"));
           CUpdate s (ByTicket (T_State "Open"))] /\
  (exists S',
     Otrs.db (remote (snd run)) !! s = Some S' /\
     State S' = "Open" /\ Articles S' = Articles S ++ Articles P) /\
  (p <> s ->
   exists P',
     Otrs.db (remote (snd run)) !! p = Some P' /\
     State P' = "resolved" /\ Articles P' = Articles P).
Proof. apply up_merge_branch. Qed.

Lemma handle_results_merge_order_witness :
  let run :=
    handle_results Otrs.service true [100] [50] (Some "203.0.113.5")
      (Otrs.up Sample.store_B [] []) in
  fst run = Ok tt /\
  calls (snd run)
  = [] ++ [CGet 100; CGet 50]
       ++ List.map (fun a => CUpdate 50 (ByArticle a)) (Articles Sample.P100)
       ++ [CUpdate 100 (ByTicket (T_State "resolved"));
           CUpdate 50 (ByTicket (T_State "Open"))] /\
  (exists S',
     Otrs.db (remote (snd run)) !! 50 = Some S' /\
     State S' = "Open" /\
     Articles S' = Articles Sample.D50 ++ Articles Sample.P100) /\
  (100 <> 50 ->
   exists P',
     Otrs.db (remote (snd run)) !! 100 = Some P' /\
     State P' = "resolved" /\ Articles P' = Articles Sample.P100).
Proof.
  apply (handle_results_merge_order true Sample.store_B [] [] 100 50 []
           (Some "203.0.113.5") Sample.P100 Sample.D50);
    [lia | lia | reflexivity | reflexivity].
Defined.

(** The new-dossier branch against a service that answers. *)
Lemma up_new_dossier (verbose : bool) (d : gmap Z ticket)
    (cs : list call) (ls : list (level * string)) (p : Z) (rest : list Z)
    (ip : string) (P : ticket) :
  d !! p = Some P ->
  exists ls',
    handle_results Otrs.service verbose (p :: rest) [] (Some ip)
      (Otrs.up d cs ls)
    = (Ok tt,
       Otrs.up
         (<[p := {| Title := dossier_phrase ip; QueueID := dossier_queue;
                    State := "Open"; Articles := Articles P;
                    DynamicFields := DynamicFields P |}]> d)
         (cs ++ [CUpdate p (ByTicket (T_Title (dossier_phrase ip)));
                 CUpdate p (ByTicket (T_QueueIDs [dossier_queue]));
                 CUpdate p (ByTicket (T_State "Open"))])
         ls').
Proof.
  intros LP. unfold handle_results. cbn [List.length Nat.ltb Nat.leb].
  rewrite dossier_title_phrase, !getitem_head, !bind_lift_ok.
  unfold Otrs.up.
  erewrite bind_ok by (apply up_update_ticket_title; exact LP).
  erewrite bind_ok by (apply up_update_ticket_queue; apply lookup_insert_eq).
  erewrite up_open_ticket by apply lookup_insert_eq.
  eexists. rewrite !insert_insert_eq, <- !app_assoc. reflexivity.
Qed.




(** ** Title patterns of the reference service *)

Section LikeFacts.
Import Text.

Lemma append_assoc (a b c : string) : (a +:+ b) +:+ c = a +:+ (b +:+ c).
Proof. apply chars_inj. rewrite !chars_app. now rewrite app_assoc. Qed.

Lemma star_intro (k : list ascii -> bool) (s1 s2 : list ascii) :
  k s2 = true -> Otrs.star k (s1 ++ s2) = true.
Proof.
  intros H. induction s1 as [|c s1 IH]; simpl.
  - destruct s2; simpl; now rewrite H.
  - rewrite IH. apply orb_true_r.
Qed.

Lemma star_elim (k : list ascii -> bool) (s : list ascii) :
  Otrs.star k s = true -> exists a b, s = a ++ b /\ k b = true.
Proof.
  induction s as [|c s IH]; simpl; intros H.
  - rewrite orb_false_r in H. now exists [], [].
  - apply orb_true_iff in H as [H|H].
    + now exists [], (c :: s).
    + destruct (IH H) as (a & b & -> & Hb). now exists (c :: a), b.
Qed.

Lemma like_self (t : list ascii) : Otrs.like t t = true.
Proof.
  induction t as [|c t IH]; simpl; [reflexivity|].
  destruct (Ascii.eqb c "%").
  - now apply (star_intro _ [c] t).
  - now rewrite Ascii.eqb_refl, IH.
Qed.

Lemma like_trailing_wildcard (p : list ascii) :
  forall s post,
    Otrs.like p s = true -> Otrs.like (p ++ ["%"%char]) (s ++ post) = true.
Proof.
  induction p as [|c p IH]; intros s post H.
  - destruct s; [|discriminate]. simpl.
    rewrite <- (app_nil_r post). now apply star_intro.
  - simpl in *. destruct (Ascii.eqb c "%").
    + apply star_elim in H as (a & b & -> & Hb).
      rewrite <- app_assoc. apply star_intro. now apply IH.
    + destruct s as [|x s]; [discriminate|]. simpl.
      apply andb_true_iff in H as [-> H]. now apply IH.
Qed.

(** A title matches the pattern made of itself between two wildcards. *)
Lemma like_wrapped (t : string) :
  Otrs.like (chars ("%" +:+ t +:+ "%")) (chars t) = true.
Proof.
  rewrite !chars_app. change (chars "%") with ["%"%char].
  cbn [app Otrs.like]. rewrite Ascii.eqb_refl.
  apply (star_intro _ [] (chars t)).
  rewrite <- (app_nil_r (chars t)) at 2.
  apply like_trailing_wildcard, like_self.
Qed.

Lemma secondary_title_wraps_phrase (ip : string) :
  secondary_title (Some ip) = "%" +:+ dossier_phrase ip +:+ "%".
Proof.
  unfold secondary_title, dossier_phrase, str_ip.
  change ("%Misbruik van uw internetverbinding " +:+ "[" +:+ ip +:+ "]%")
    with ("%" +:+ ("Misbruik van uw internetverbinding ["
                    +:+ (ip +:+ ("]" +:+ "%")))).
  f_equal. now rewrite <- !append_assoc.
Qed.

Lemma dossier_selected (ip : string) (t : ticket) :
  Title t = dossier_phrase ip -> QueueID t = dossier_queue ->
  Otrs.selected secondary_queues (secondary_title (Some ip)) t = true.
Proof.
  intros HT HQ. unfold Otrs.selected.
  rewrite HT, HQ, secondary_title_wraps_phrase, like_wrapped.
  reflexivity.
Qed.

Lemma do_search_finds (queues : list Z) (title : string)
    (d : gmap Z ticket) (id : Z) (t : ticket) :
  d !! id = Some t -> Otrs.selected queues title t = true ->
  exists found,
    Otrs.do_search queues title d = (Ok found, d) /\ In id found.
Proof.
  intros L Hsel. eexists. split; [reflexivity|].
  apply (in_map fst _ (id, t)). apply filter_In. split; [|exact Hsel].
  apply list_elem_of_In. now apply elem_of_map_to_list.
Qed.

End LikeFacts.

(** ** A new dossier is found again *)

(** C10: the title the new-dossier action writes is the phrase that the
    secondary search pattern for the same IP wraps in wildcards, and the
    queue it moves the ticket to is one the secondary search looks in; so
    once the three updates have gone through, a secondary search for that
    IP returns the ticket. *)
Theorem new_dossier_found_by_secondary_search (verbose : bool)
    (d : gmap Z ticket) (cs : list call) (ls : list (level * string))
    (p : Z) (rest : list Z) (ip : string) (P : ticket) :
  d !! p = Some P ->
  let w' :=
    snd (handle_results Otrs.service verbose (p :: rest) [] (Some ip)
           (Otrs.up d cs ls)) in
  In (CUpdate p (ByTicket (T_Title (dossier_phrase ip)))) (calls w') /\
  In (CUpdate p (ByTicket (T_QueueIDs [dossier_queue]))) (calls w') /\
  secondary_title (Some ip) = "%" +:+ dossier_phrase ip +:+ "%" /\
  In dossier_queue secondary_queues /\
  exists found,
    fst (secondary_search Otrs.service (Some ip) w') = Ok found /\
    In p found.
Proof.
  intros LP.
  destruct (up_new_dossier verbose d cs ls p rest ip P LP) as [ls' ->].
  cbn [snd Otrs.up Otrs.mk calls].
  split; [apply in_or_app; right; simpl; tauto|].
  split; [apply in_or_app; right; simpl; tauto|].
  split; [apply secondary_title_wraps_phrase|].
  split; [simpl; tauto|].
  destruct (do_search_finds secondary_queues (secondary_title (Some ip))
              (<[p := {| Title := dossier_phrase ip; QueueID := dossier_queue;
                         State := "Open"; Articles := Articles P;
                         DynamicFields := DynamicFields P |}]> d)
              p _ (lookup_insert_eq d p _))
    as (found & Hs & Hin);
    [apply (dossier_selected ip); reflexivity|].
  exists found. split; [|exact Hin].
  unfold secondary_search, bind, try_except, tc_TicketSearch, remote_call.
  cbn [Otrs.service TicketSearch]. unfold Otrs.answer, Otrs.up, Otrs.mk.
  cbn [remote Otrs.faults Otrs.db]. now rewrite Hs.
Qed.

Lemma new_dossier_found_by_secondary_search_witness :
  let w' :=
    snd (handle_results Otrs.service false [100] [] (Some "203.0.113.5")
           (Otrs.up Sample.store_A [] [])) in
  In (CUpdate 100 (ByTicket (T_Title (dossier_phrase "203.0.113.5"))))
    (calls w') /\
  In (CUpdate 100 (ByTicket (T_QueueIDs [dossier_queue]))) (calls w') /\
  secondary_title (Some "203.0.113.5")
  = "%" +:+ dossier_phrase "203.0.113.5" +:+ "%" /\
  In dossier_queue secondary_queues /\
  exists found,
    fst (secondary_search Otrs.service (Some "203.0.113.5") w') = Ok found /\
    In 100 found.
Proof.
  apply (new_dossier_found_by_secondary_search false Sample.store_A [] []
           100 [] "203.0.113.5" Sample.P100).
  reflexivity.
Defined.

(** ** Tickets without an IP *)

(** C8 at a ticket whose title names no IP: the driver does not skip
    it.  It goes on to a secondary search for the text ["None"]; when
    that finds nothing the new-dossier branch raises [TypeError] on
    [str + None] and the run ends there, and when it finds one ticket
    the driver merges into it and closes the primary ticket. *)
Theorem driver_processes_ticket_without_ip :
  extract_ip (Title Sample.P103) = None /\
  main Otrs.service false (Otrs.fresh Sample.store_C [])
  = (Raise TypeError,
     Otrs.mk Sample.store_C []
       [CSearch [25] "%Contactformulier KPN voor het IP adres %%";
        CGet 103;
        CSearch [22; 23; 25] "%Misbruik van uw internetverbinding [None]%"]
       []) /\
  fst (main Otrs.service false (Otrs.fresh Sample.store_D [])) = Ok tt /\
  calls (snd (main Otrs.service false (Otrs.fresh Sample.store_D [])))
  = [CSearch [25] "%Contactformulier KPN voor het IP adres %%";
     CGet 103;
     CSearch [22; 23; 25] "%Misbruik van uw internetverbinding [None]%";
     CGet 103; CGet 60;
     CUpdate 60 (ByArticle Sample.art1);
     CUpdate 103 (ByTicket (T_State "resolved"));
     CUpdate 60 (ByTicket (T_State "Open"))].
Proof. repeat split; vm_compute; reflexivity. Qed.

(** * Further properties of the code *)

(** ** Extraction from well-formed titles *)

Section RoundTrip.
Import Text Re.

(** A run of accepted characters that ends before a rejected one is
    taken whole, with no backtracking. *)
Lemma greedy_maximal (a : atom) (k : list ascii -> option (list ascii))
    (rest m : list ascii) :
  match rest with [] => True | c :: _ => accepts a c = false end ->
  k rest = Some m ->
  forall ds lo hi,
    Forall (fun c => accepts a c = true) ds ->
    (lo <= List.length ds <= hi)%nat ->
    greedy a k lo hi (ds ++ rest) = Some (ds ++ m).
Proof.
  intros Hrest Hk. induction ds as [|c ds IH]; intros lo hi Hall Hlen.
  - simpl in Hlen. assert (lo = O) as -> by lia. cbn [app].
    destruct hi as [|hi]; [destruct rest; exact Hk|].
    destruct rest as [|c r]; [exact Hk|]. simpl. now rewrite Hrest.
  - inversion Hall as [|c' ds' Hc Hall']; subst. simpl in Hlen.
    destruct hi as [|hi]; [lia|]. cbn [app greedy]. rewrite Hc.
    rewrite (IH (Nat.pred lo) hi Hall') by lia. reflexivity.
Qed.

Lemma search_skips (pre s : list ascii) :
  Forall (fun c => is_digit c = false) pre ->
  search ip_pattern (pre ++ s) = search ip_pattern s.
Proof.
  intros Hpre. induction Hpre as [|c pre Hc _ IH]; [reflexivity|].
  cbn [app search]. unfold ip_pattern at 1. cbn [match_here greedy accepts].
  rewrite Hc. exact IH.
Qed.

Lemma match_here_dotted_decimal (ip : string) (post : list ascii) :
  dotted_quad literal_dot ip ->
  match post with [] => True | c :: _ => is_digit c = false end ->
  match_here ip_pattern (chars ip ++ post) = Some (chars ip).
Proof.
  intros (d1 & s1 & d2 & s2 & d3 & s3 & d4 & -> & H1 & H2 & H3 & H4
          & -> & -> & ->) Hpost.
  apply digits13_chars in H1, H2, H3, H4.
  destruct H1 as [L1 A1], H2 as [L2 A2], H3 as [L3 A3], H4 as [L4 A4].
  set (c1 := chars d1) in *. set (c2 := chars d2) in *.
  set (c3 := chars d3) in *. set (c4 := chars d4) in *.
  set (dot := One Dot). set (num := Rep Digit 1 3).
  assert (match_here [num] (c4 ++ post) = Some c4) as E4.
  { rewrite <- (app_nil_r c4) at 2.
    exact (greedy_maximal Digit (match_here []) post [] Hpost eq_refl
             c4 1%nat 3%nat A4 L4). }
  assert (forall p r m,
             match_here p r = Some m ->
             match_here (dot :: p) ("."%char :: r) = Some ("."%char :: m))
    as Hdot.
  { intros p r m E. cbn [match_here dot accepts].
    change (negb (is_newline ".")) with true. cbv iota. now rewrite E. }
  assert (forall p r m ds,
             Forall (fun c => accepts Digit c = true) ds ->
             (1 <= List.length ds <= 3)%nat ->
             match_here (dot :: p) ("."%char :: r) = Some m ->
             match_here (num :: dot :: p) (ds ++ "."%char :: r)
             = Some (ds ++ m))
    as Hnum.
  { intros p r m ds A L E.
    exact (greedy_maximal Digit (match_here (dot :: p)) ("."%char :: r) m
             eq_refl E ds 1%nat 3%nat A L). }
  assert (chars (d1 +:+ String "." (d2 +:+ String "." (d3 +:+ String "." d4)))
          = c1 ++ "."%char :: c2 ++ "."%char :: c3 ++ "."%char :: c4) as E.
  { rewrite chars_app. cbn [chars list_ascii_of_string].
    fold (chars (d2 +:+ String "." (d3 +:+ String "." d4))).
    rewrite chars_app. cbn [chars list_ascii_of_string].
    fold (chars (d3 +:+ String "." d4)).
    rewrite chars_app. reflexivity. }
  rewrite E. clear E.
  replace ((c1 ++ "."%char :: c2 ++ "."%char :: c3 ++ "."%char :: c4) ++ post)
    with (c1 ++ "."%char :: c2 ++ "."%char :: c3 ++ "."%char :: c4 ++ post).
  2:{ rewrite <- !app_assoc. cbn [app]. rewrite <- !app_assoc. cbn [app].
      rewrite <- !app_assoc. reflexivity. }
  unfold ip_pattern. fold dot. fold num.
  apply Hnum; [exact A1 | exact L1 |]. apply Hdot.
  apply Hnum; [exact A2 | exact L2 |]. apply Hdot.
  apply Hnum; [exact A3 | exact L3 |]. apply Hdot.
  exact E4.
Qed.

Lemma search_here (p : list item) (s m : list ascii) :
  match_here p s = Some m -> search p s = Some m.
Proof. intros H. destruct s; simpl; now rewrite H. Qed.

Lemma extract_ip_in_context (pre ip post : string) :
  no_digit pre -> dotted_quad literal_dot ip -> no_leading_digit post ->
  extract_ip (pre +:+ ip +:+ post) = Some ip.
Proof.
  intros Hpre Hip Hpost. unfold extract_ip.
  rewrite !chars_app, search_skips by exact Hpre.
  rewrite (search_here _ _ (chars ip)).
  - simpl. now rewrite text_chars.
  - apply match_here_dotted_decimal; [exact Hip|].
    destruct post; [exact I | exact Hpost].
Qed.

(** A dotted-decimal address standing in a title between text without
    digits (such as the brackets of both title templates) is returned
    exactly: the first match is the whole address, none of its digits
    is dropped or taken as a separator. *)
Theorem extract_ip_dotted_decimal (pre ip post : string) :
  no_digit pre -> dotted_quad literal_dot ip -> no_leading_digit post ->
  extract_ip (pre +:+ ip +:+ post) = Some ip.
Proof. apply extract_ip_in_context. Qed.

Lemma extract_ip_dotted_decimal_witness :
  extract_ip ("Contactformulier KPN voor het IP adres [" +:+ "203.0.113.5"
              +:+ "]")
  = Some "203.0.113.5"%string.
Proof.
  apply (extract_ip_dotted_decimal
           "Contactformulier KPN voor het IP adres [" "203.0.113.5" "]").
  - unfold no_digit. simpl. repeat constructor.
  - exists "203"%string, "."%char, "0"%string, "."%char, "113"%string,
      "."%char, "5"%string.
    unfold digits13, literal_dot. simpl.
    repeat split; try lia; repeat constructor.
  - reflexivity.
Defined.

End RoundTrip.

(** ** What the log can show *)

Section Logging.
Context {R : Type}.
Variable client : Remote R.
Variable verbose : bool.

Lemma elo_refl (w : world R) : error_lines_ok w w.
Proof. exists []. split; [now rewrite app_nil_r | intros ? []]. Qed.

Lemma elo_trans (a b c : world R) :
  error_lines_ok a b -> error_lines_ok b c -> error_lines_ok a c.
Proof.
  intros (l1 & E1 & H1) (l2 & E2 & H2). exists (l1 ++ l2). split.
  - now rewrite E2, E1, app_assoc.
  - intros msg Hin. apply in_app_or in Hin as [Hin|Hin]; eauto.
Qed.

Lemma quiet_log (lv : level) (msg : string) :
  lv <> Error -> preserves (@error_lines_ok R) (log_at lv msg).
Proof.
  intros Hlv w. exists [(lv, msg)]. split; [reflexivity|].
  intros m [[= E _]|[]]. contradiction.
Qed.

Lemma quiet_abort : preserves (@error_lines_ok R) (log_at Error abort_line).
Proof.
  intros w. exists [(Error, abort_line)]. split; [reflexivity|].
  now intros m [[= <-]|[]].
Qed.

Lemma quiet_call {A} (c : call) (op : R -> result A * R) :
  preserves (@error_lines_ok R) (remote_call c op).
Proof.
  intros w. exists []. unfold remote_call.
  destruct (op (remote w)). split; [simpl; now rewrite app_nil_r|].
  intros ? [].
Qed.

(** The message of a handler is never built, so it is never logged. *)
Lemma quiet_log_exception (prefix : string) (e : exn) :
  preserves (@error_lines_ok R) (log_exception prefix e).
Proof. intros w. apply elo_refl. Qed.

Lemma quiet_try_ValueError {A} (m : M R A) (h : exn -> M R A) :
  preserves (@error_lines_ok R) m ->
  preserves (@error_lines_ok R) (h ValueError) ->
  preserves (@error_lines_ok R) (try_except_ValueError m h).
Proof.
  intros Hm Hh w. unfold try_except_ValueError. specialize (Hm w).
  destruct (m w) as [[a|e] w']; [exact Hm|].
  destruct e; try exact Hm.
  eapply elo_trans; [exact Hm | apply Hh].
Qed.

Ltac quiet :=
  repeat match goal with
  | |- preserves _ (bind _ _) =>
      eapply preserves_bind; [apply elo_trans | | intros ?]
  | |- preserves _ (try_except _ _) =>
      eapply preserves_try; [apply elo_trans | | intros ?]
  | |- preserves _ (when _ _) => eapply preserves_when; [apply elo_refl|]
  | |- preserves _ (ret _) => eapply preserves_ret; apply elo_refl
  | |- preserves _ (raise _) => eapply preserves_raise; apply elo_refl
  | |- preserves _ (lift _) => eapply preserves_lift; apply elo_refl
  | |- preserves _ (attr _ _) => eapply preserves_attr; apply elo_refl
  | |- preserves _ (log_exception _ _) => apply quiet_log_exception
  | |- preserves _ (log_at Error _) => apply quiet_abort
  | |- preserves _ (log_at _ _) => apply quiet_log; discriminate
  | |- preserves _ (remote_call _ _) => apply quiet_call
  | |- preserves _ (for_each _ _) =>
      eapply preserves_for_each; [apply elo_refl | apply elo_trans | intros ?]
  | |- preserves _ (if ?b then _ else _) => destruct b
  | |- preserves _ (match ?x with _ => _ end) => destruct x
  end.

Lemma quiet_update_ticket_queue (id queue : Z) :
  preserves (@error_lines_ok R) (update_ticket_queue client verbose id queue).
Proof. unfold update_ticket_queue, tc_TicketUpdate. quiet. Qed.

Lemma quiet_update_ticket_title (id : Z) (title : string) :
  preserves (@error_lines_ok R) (update_ticket_title client verbose id title).
Proof. unfold update_ticket_title, tc_TicketUpdate. quiet. Qed.

Lemma quiet_close_ticket (id : Z) :
  preserves (@error_lines_ok R) (close_ticket client verbose id).
Proof. unfold close_ticket, tc_TicketUpdate. quiet. Qed.

Lemma quiet_open_ticket (id : Z) :
  preserves (@error_lines_ok R) (open_ticket client verbose id).
Proof. unfold open_ticket, tc_TicketUpdate. quiet. Qed.

Lemma quiet_get_ticket (id : Z) :
  preserves (@error_lines_ok R) (get_ticket client verbose id).
Proof. unfold get_ticket, tc_TicketGet. quiet. Qed.

Lemma quiet_get_ticket_title_ip (id : Z) :
  preserves (@error_lines_ok R) (get_ticket_title_ip client verbose id).
Proof.
  unfold get_ticket_title_ip. quiet; try apply quiet_get_ticket; quiet.
Qed.

Lemma quiet_merge_tickets (t1 t2 : Z) :
  preserves (@error_lines_ok R) (merge_tickets client verbose t1 t2).
Proof.
  unfold merge_tickets, tc_TicketUpdate.
  quiet; try apply quiet_get_ticket; quiet.
Qed.

Lemma quiet_secondary_search (ip : option string) :
  preserves (@error_lines_ok R) (secondary_search client ip).
Proof. unfold secondary_search, return_local, tc_TicketSearch. quiet. Qed.

Lemma quiet_primary_search (ip : option string) :
  preserves (@error_lines_ok R) (primary_search client ip).
Proof. unfold primary_search, return_local, tc_TicketSearch. quiet. Qed.

Lemma quiet_handle_results (primary secondary : list Z)
    (ip : option string) :
  preserves (@error_lines_ok R)
    (handle_results client verbose primary secondary ip).
Proof.
  unfold handle_results.
  quiet;
    first [ apply quiet_merge_tickets | apply quiet_close_ticket
          | apply quiet_open_ticket | apply quiet_update_ticket_title
          | apply quiet_update_ticket_queue ].
Qed.

Lemma quiet_process_ticket (primary : list Z) (ticket : Z) :
  preserves (@error_lines_ok R)
    (process_ticket client verbose primary ticket).
Proof.
  unfold process_ticket.
  quiet;
    first [ apply quiet_get_ticket_title_ip | apply quiet_secondary_search
          | apply quiet_handle_results ].
Qed.

Lemma quiet_process_all (primary rest secondary : list Z) :
  preserves (@error_lines_ok R)
    (process_all client verbose primary rest secondary).
Proof.
  revert secondary. induction rest as [|t rest IH]; intros secondary; simpl.
  - quiet.
  - quiet; [apply quiet_process_ticket | apply IH].
Qed.

Lemma quiet_main : preserves (@error_lines_ok R) (main client verbose).
Proof.
  unfold main. apply quiet_try_ValueError; [|apply quiet_log_exception].
  quiet; first [apply quiet_primary_search | apply quiet_process_all].
Qed.

End Logging.

(** Whatever the remote does, the only error line a run of [main] can
    add to the log is "Multiple dossiers found, aborting.": every
    exception handler fails while building its message, so a remote
    failure or an invalid input never shows up as an error line. *)
Theorem main_error_lines {R : Type} (client : Remote R) (verbose : bool)
    (w : world R) :
  exists ls,
    logs (snd (main client verbose w)) = logs w ++ ls /\
    forall msg,
      In (Error, msg) ls -> msg = "Multiple dossiers found, aborting."%string.
Proof. apply quiet_main. Qed.

(** ** Single operations against any remote *)

Section AnyRemote.
Context {R : Type}.
Variable client : Remote R.
Variable verbose : bool.

Lemma guarded_sends_one (msg prefix : string) (id : Z) (u : upd)
    (w : world R) :
  sends_one_update client
    (when verbose (log_at Info msg) ;;
     try_except (tc_TicketUpdate client id u) (log_exception prefix))
    id u w.
Proof.
  unfold sends_one_update, bind, try_except, tc_TicketUpdate, remote_call.
  destruct verbose; simpl;
    destruct (TicketUpdate client id u (remote w)) as [[[]|e] r'];
    simpl; auto.
Qed.

Lemma get_ticket_title_ip_run (id : Z) (w : world R) :
  (id = 0 ->
   fst (get_ticket_title_ip client verbose id w) = Ok None /\
   calls (snd (get_ticket_title_ip client verbose id w)) = calls w /\
   remote (snd (get_ticket_title_ip client verbose id w)) = remote w) /\
  (id <> 0 ->
   fst (get_ticket_title_ip client verbose id w)
   = match fst (TicketGet client id (remote w)) with
     | Ok t => Ok (extract_ip (Title t))
     | Raise e => Raise e
     end /\
   calls (snd (get_ticket_title_ip client verbose id w))
   = calls w ++ [CGet id] /\
   remote (snd (get_ticket_title_ip client verbose id w))
   = snd (TicketGet client id (remote w))).
Proof.
  split.
  - intros ->. unfold get_ticket_title_ip. simpl.
    destruct verbose; simpl; auto.
  - intros Hid. unfold get_ticket_title_ip, get_ticket, truthy.
    destruct (Z.eqb_spec id 0) as [|_]; [contradiction|]. simpl.
    unfold bind, try_except, tc_TicketGet, remote_call.
    destruct (TicketGet client id (remote w)) as [[t|e] r']; simpl;
      [|auto].
    destruct (extract_ip (Title t)); destruct verbose; simpl; auto.
Qed.

End AnyRemote.

(** Each of the five mutations sends its one [TicketUpdate] and no
    other call, whatever the remote answers: there is no retry and no
    read before the write.  It ends normally exactly when the remote
    answered.  The [Ticket] that [update_ticket_ip] sends carries no
    attribute: its [DynamicField] is passed positionally and dropped. *)
Theorem mutations_send_one_update {R : Type} (client : Remote R)
    (verbose : bool) (id queue : Z) (title ip : string) (w : world R) :
  sends_one_update client (update_ticket_queue client verbose id queue)
    id (ByTicket (T_QueueIDs [queue])) w /\
  sends_one_update client (update_ticket_title client verbose id title)
    id (ByTicket (T_Title title)) w /\
  sends_one_update client (update_ticket_ip client verbose id ip)
    id (ByTicket T_Empty) w /\
  sends_one_update client (close_ticket client verbose id)
    id (ByTicket (T_State "resolved")) w /\
  sends_one_update client (open_ticket client verbose id)
    id (ByTicket (T_State "Open")) w.
Proof. repeat split; apply guarded_sends_one. Qed.

(** [get_ticket_title_ip] answers [None] for ticket id 0 without
    contacting the remote.  For any other id it fetches the ticket once
    and returns what [re.search] finds in its title; if the fetch raises,
    that same exception is raised again, unlike in the handlers that
    log. It never sends an update. *)
Theorem get_ticket_title_ip_behaviour {R : Type} (client : Remote R)
    (verbose : bool) (id : Z) (w : world R) :
  (id = 0 ->
   fst (get_ticket_title_ip client verbose id w) = Ok None /\
   calls (snd (get_ticket_title_ip client verbose id w)) = calls w /\
   remote (snd (get_ticket_title_ip client verbose id w)) = remote w) /\
  (id <> 0 ->
   fst (get_ticket_title_ip client verbose id w)
   = match fst (TicketGet client id (remote w)) with
     | Ok t => Ok (extract_ip (Title t))
     | Raise e => Raise e
     end /\
   calls (snd (get_ticket_title_ip client verbose id w))
   = calls w ++ [CGet id] /\
   remote (snd (get_ticket_title_ip client verbose id w))
   = snd (TicketGet client id (remote w))).
Proof. apply get_ticket_title_ip_run. Qed.

(** ** The driver against any remote *)

Section Driver.
Context {R : Type}.
Variable client : Remote R.
Variable verbose : bool.

Lemma secondary_search_ok (ip : option string) (w : world R) (l : list Z)
    (r' : R) :
  TicketSearch client secondary_queues (secondary_title ip) (remote w)
  = (Ok l, r') ->
  secondary_search client ip w
  = (Ok l,
     {| remote := r';
        calls := calls w ++ [CSearch secondary_queues (secondary_title ip)];
        logs := logs w |}).
Proof.
  intros H. unfold secondary_search, bind, try_except, tc_TicketSearch,
    remote_call. now rewrite H.
Qed.

Lemma primary_search_ok (ip : option string) (w : world R) (l : list Z)
    (r' : R) :
  TicketSearch client primary_queues (primary_title ip) (remote w)
  = (Ok l, r') ->
  primary_search client ip w
  = (Ok l,
     {| remote := r';
        calls := calls w ++ [CSearch primary_queues (primary_title ip)];
        logs := logs w |}).
Proof.
  intros H. unfold primary_search, bind, try_except, tc_TicketSearch,
    remote_call. now rewrite H.
Qed.

Lemma main_empty_run (w : world R) (r' : R) :
  TicketSearch client primary_queues (primary_title (Some "%")) (remote w)
  = (Ok [], r') ->
  fst (main client verbose w) = Ok tt /\
  calls (snd (main client verbose w))
  = calls w ++ [CSearch [25] "%Contactformulier KPN voor het IP adres %%"] /\
  remote (snd (main client verbose w)) = r'.
Proof.
  intros H.
  destruct verbose;
    cbv beta iota zeta delta
      [main try_except_ValueError bind when primary_search try_except
       tc_TicketSearch remote_call log_at ret return_local];
    cbn [remote calls logs]; rewrite H;
    cbn [process_all ret fst snd remote calls logs]; auto.
Qed.

Lemma process_ticket_abort (primary : list Z) (t : Z) (w : world R)
    (T : ticket) (r1 r2 : R) (l : list Z) :
  In t primary -> t <> 0 ->
  TicketGet client t (remote w) = (Ok T, r1) ->
  TicketSearch client secondary_queues
    (secondary_title (extract_ip (Title T))) r1 = (Ok l, r2) ->
  (2 <= List.length l)%nat ->
  fst (process_ticket client verbose primary t w) = Ok l /\
  calls (snd (process_ticket client verbose primary t w))
  = calls w ++ [CGet t;
                CSearch secondary_queues
                  (secondary_title (extract_ip (Title T)))] /\
  remote (snd (process_ticket client verbose primary t w)) = r2 /\
  In (Error, abort_line)
    (logs (snd (process_ticket client verbose primary t w))).
Proof.
  intros Hin Ht HG HS Hl. unfold process_ticket.
  destruct (index_getitem t primary Hin) as (i & -> & Hg).
  rewrite bind_lift_ok, Hg, bind_lift_ok.
  destruct (get_ticket_title_ip_run client verbose t w) as [_ Hrun].
  destruct (Hrun Ht) as (Hres & Hcalls & Hrem). clear Hrun.
  rewrite HG in Hres, Hrem. simpl in Hres, Hrem.
  destruct (get_ticket_title_ip client verbose t w) as [res w1] eqn:E.
  simpl in Hres, Hcalls, Hrem. subst res.
  erewrite bind_ok by exact E.
  erewrite bind_ok by (apply secondary_search_ok; rewrite Hrem; exact HS).
  destruct l as [|a [|b l]]; simpl in Hl; try lia.
  unfold handle_results. cbn [List.length Nat.ltb Nat.leb].
  unfold bind, log_at, ret. cbn [fst snd calls remote logs].
  rewrite Hcalls, <- app_assoc. repeat split.
  apply in_or_app. right. now left.
Qed.

End Driver.

(** When the wildcard primary search answers with no ticket, the run
    ends normally after that one call: no ticket is fetched, no secondary
    search is made and nothing is updated. *)
Theorem main_no_primary_tickets {R : Type} (client : Remote R)
    (verbose : bool) (w : world R) (r' : R) :
  TicketSearch client primary_queues (primary_title (Some "%")) (remote w)
  = (Ok [], r') ->
  fst (main client verbose w) = Ok tt /\
  calls (snd (main client verbose w))
  = calls w ++ [CSearch [25] "%Contactformulier KPN voor het IP adres %%"] /\
  remote (snd (main client verbose w)) = r'.
Proof. apply main_empty_run. Qed.

Lemma main_no_primary_tickets_witness :
  fst (main Otrs.service true (Otrs.fresh {[ 50 := Sample.D50 ]} [])) = Ok tt /\
  calls (snd (main Otrs.service true (Otrs.fresh {[ 50 := Sample.D50 ]} [])))
  = calls (Otrs.fresh {[ 50 := Sample.D50 ]} [])
    ++ [CSearch [25] "%Contactformulier KPN voor het IP adres %%"] /\
  remote (snd (main Otrs.service true (Otrs.fresh {[ 50 := Sample.D50 ]} [])))
  = {| Otrs.db := {[ 50 := Sample.D50 ]}; Otrs.faults := [] |}.
Proof.
  apply (main_no_primary_tickets Otrs.service true
           (Otrs.fresh {[ 50 := Sample.D50 ]} [])).
  reflexivity.
Defined.

(** For a ticket of the primary list whose IP has two or more dossiers,
    the loop body fetches the ticket, runs the secondary search, writes
    the abort line and ends normally with no update sent, so the loop
    goes on to the next ticket. *)
Theorem process_ticket_ambiguous {R : Type} (client : Remote R)
    (verbose : bool) (primary : list Z) (t : Z) (w : world R)
    (T : ticket) (r1 r2 : R) (l : list Z) :
  In t primary -> t <> 0 ->
  TicketGet client t (remote w) = (Ok T, r1) ->
  TicketSearch client secondary_queues
    (secondary_title (extract_ip (Title T))) r1 = (Ok l, r2) ->
  (2 <= List.length l)%nat ->
  fst (process_ticket client verbose primary t w) = Ok l /\
  calls (snd (process_ticket client verbose primary t w))
  = calls w ++ [CGet t;
                CSearch secondary_queues
                  (secondary_title (extract_ip (Title T)))] /\
  remote (snd (process_ticket client verbose primary t w)) = r2 /\
  In (Error, abort_line)
    (logs (snd (process_ticket client verbose primary t w))).
Proof. apply process_ticket_abort. Qed.

Lemma process_ticket_ambiguous_witness :
  fst (process_ticket Otrs.service true [104] 104
         (Otrs.fresh Sample.store_E [])) = Ok [51; 52] /\
  calls (snd (process_ticket Otrs.service true [104] 104
                (Otrs.fresh Sample.store_E [])))
  = calls (Otrs.fresh Sample.store_E [])
    ++ [CGet 104;
        CSearch secondary_queues
          (secondary_title (extract_ip (Title Sample.P104)))] /\
  remote (snd (process_ticket Otrs.service true [104] 104
                 (Otrs.fresh Sample.store_E [])))
  = {| Otrs.db := Sample.store_E; Otrs.faults := [] |} /\
  In (Error, abort_line)
    (logs (snd (process_ticket Otrs.service true [104] 104
                  (Otrs.fresh Sample.store_E [])))).
Proof.
  apply (process_ticket_ambiguous Otrs.service true [104] 104
           (Otrs.fresh Sample.store_E []) Sample.P104
           {| Otrs.db := Sample.store_E; Otrs.faults := [] |}
           {| Otrs.db := Sample.store_E; Otrs.faults := [] |} [51; 52]).
  - simpl. tauto.
  - lia.
  - reflexivity.
  - reflexivity.
  - simpl. lia.
Defined.

(** ** New dossiers over several runs *)

Lemma dossier_phrase_ip (ip : string) :
  dotted_quad literal_dot ip -> extract_ip (dossier_phrase ip) = Some ip.
Proof.
  intros Hip.
  apply (extract_ip_in_context "Misbruik van uw internetverbinding [" ip "]");
    [| exact Hip | reflexivity].
  unfold no_digit. simpl. repeat constructor.
Qed.

Lemma new_dossier_twice (verbose : bool) (d : gmap Z ticket)
    (cs : list call) (ls : list (level * string)) (p : Z) (rest : list Z)
    (ip : string) (P : ticket) :
  d !! p = Some P ->
  fst (handle_results Otrs.service verbose (p :: rest) [] (Some ip)
         (snd (handle_results Otrs.service verbose (p :: rest) [] (Some ip)
                 (Otrs.up d cs ls)))) = Ok tt /\
  Otrs.db (remote
    (snd (handle_results Otrs.service verbose (p :: rest) [] (Some ip)
            (snd (handle_results Otrs.service verbose (p :: rest) []
                    (Some ip) (Otrs.up d cs ls))))))
  = Otrs.db (remote
      (snd (handle_results Otrs.service verbose (p :: rest) [] (Some ip)
              (Otrs.up d cs ls)))).
Proof.
  intros LP.
  destruct (up_new_dossier verbose d cs ls p rest ip P LP) as [ls1 ->].
  cbn [snd].
  edestruct (up_new_dossier verbose) as [ls2 ->];
    [apply (lookup_insert_eq d p)|].
  cbn [fst snd Otrs.up Otrs.mk remote Otrs.db Articles DynamicFields].
  split; [reflexivity|]. apply insert_insert_eq.
Qed.

Lemma new_dossier_title_ip (verbose : bool) (d : gmap Z ticket)
    (cs : list call) (ls : list (level * string)) (p : Z) (rest : list Z)
    (ip : string) (P : ticket) :
  d !! p = Some P -> p <> 0 -> dotted_quad literal_dot ip ->
  fst (get_ticket_title_ip Otrs.service verbose p
         (snd (handle_results Otrs.service verbose (p :: rest) [] (Some ip)
                 (Otrs.up d cs ls)))) = Ok (Some ip).
Proof.
  intros LP Hp Hip.
  destruct (up_new_dossier verbose d cs ls p rest ip P LP) as [ls1 ->].
  cbn [snd].
  destruct (get_ticket_title_ip_run Otrs.service verbose p
              (Otrs.up
                 (<[p := {| Title := dossier_phrase ip;
                            QueueID := dossier_queue; State := "Open";
                            Articles := Articles P;
                            DynamicFields := DynamicFields P |}]> d)
                 (cs ++ [CUpdate p (ByTicket (T_Title (dossier_phrase ip)));
                         CUpdate p (ByTicket (T_QueueIDs [dossier_queue]));
                         CUpdate p (ByTicket (T_State "Open"))]) ls1))
    as [_ Hrun].
  destruct (Hrun Hp) as (-> & _ & _).
  cbn [Otrs.up Otrs.mk remote Otrs.service TicketGet].
  unfold Otrs.answer, Otrs.do_get. cbn [Otrs.faults Otrs.db].
  rewrite lookup_insert_eq. cbn [fst Title].
  now rewrite dossier_phrase_ip.
Qed.

(** Running the new-dossier action a second time on the same ticket,
    with still no dossier found, ends normally and leaves the stored
    tickets exactly as the first run left them. *)
Theorem new_dossier_idempotent (verbose : bool) (d : gmap Z ticket)
    (cs : list call) (ls : list (level * string)) (p : Z) (rest : list Z)
    (ip : string) (P : ticket) :
  d !! p = Some P ->
  fst (handle_results Otrs.service verbose (p :: rest) [] (Some ip)
         (snd (handle_results Otrs.service verbose (p :: rest) [] (Some ip)
                 (Otrs.up d cs ls)))) = Ok tt /\
  Otrs.db (remote
    (snd (handle_results Otrs.service verbose (p :: rest) [] (Some ip)
            (snd (handle_results Otrs.service verbose (p :: rest) []
                    (Some ip) (Otrs.up d cs ls))))))
  = Otrs.db (remote
      (snd (handle_results Otrs.service verbose (p :: rest) [] (Some ip)
              (Otrs.up d cs ls)))).
Proof. apply new_dossier_twice. Qed.

Lemma new_dossier_idempotent_witness :
  fst (handle_results Otrs.service false [100] [] (Some "203.0.113.5")
         (snd (handle_results Otrs.service false [100] []
                 (Some "203.0.113.5") (Otrs.up Sample.store_A [] []))))
  = Ok tt /\
  Otrs.db (remote
    (snd (handle_results Otrs.service false [100] [] (Some "203.0.113.5")
            (snd (handle_results Otrs.service false [100] []
                    (Some "203.0.113.5") (Otrs.up Sample.store_A [] []))))))
  = Otrs.db (remote
      (snd (handle_results Otrs.service false [100] [] (Some "203.0.113.5")
              (Otrs.up Sample.store_A [] [])))).
Proof.
  apply (new_dossier_idempotent false Sample.store_A [] [] 100 []
           "203.0.113.5" Sample.P100).
  reflexivity.
Defined.

(** The title a new dossier gets still yields its IP: for a
    dotted-decimal [ip], reading the converted ticket's title back with
    [get_ticket_title_ip] returns [ip]. *)
Theorem new_dossier_keeps_ip (verbose : bool) (d : gmap Z ticket)
    (cs : list call) (ls : list (level * string)) (p : Z) (rest : list Z)
    (ip : string) (P : ticket) :
  d !! p = Some P -> p <> 0 -> dotted_quad literal_dot ip ->
  fst (get_ticket_title_ip Otrs.service verbose p
         (snd (handle_results Otrs.service verbose (p :: rest) [] (Some ip)
                 (Otrs.up d cs ls)))) = Ok (Some ip).
Proof. apply new_dossier_title_ip. Qed.

Lemma new_dossier_keeps_ip_witness :
  fst (get_ticket_title_ip Otrs.service false 100
         (snd (handle_results Otrs.service false [100] []
                 (Some "203.0.113.5") (Otrs.up Sample.store_A [] []))))
  = Ok (Some "203.0.113.5"%string).
Proof.
  apply (new_dossier_keeps_ip false Sample.store_A [] [] 100 []
           "203.0.113.5" Sample.P100).
  - reflexivity.
  - lia.
  - exists "203"%string, "."%char, "0"%string, "."%char, "113"%string,
      "."%char, "5"%string.
    unfold digits13, literal_dot. simpl.
    repeat split; try lia; repeat constructor.
Defined.

(** ** Failures in the middle of a merge *)

Section MidMerge.
Variable verbose : bool.

Lemma ans_update (d : gmap Z ticket) (fs : list (option exn))
    (cs : list call) (ls : list (level * string)) (id : Z) (u : upd)
    (t : ticket) :
  d !! id = Some t ->
  tc_TicketUpdate Otrs.service id u (Otrs.mk d (None :: fs) cs ls)
  = (Ok tt,
     Otrs.mk (<[id := Otrs.apply_upd u t]> d) fs (cs ++ [CUpdate id u]) ls).
Proof.
  intros H. unfold tc_TicketUpdate, remote_call. simpl.
  unfold Otrs.answer, Otrs.do_update. simpl. now rewrite H.
Qed.

Lemma fail_update (d : gmap Z ticket) (e : exn) (fs : list (option exn))
    (cs : list call) (ls : list (level * string)) (id : Z) (u : upd) :
  tc_TicketUpdate Otrs.service id u (Otrs.mk d (Some e :: fs) cs ls)
  = (Raise e, Otrs.mk d fs (cs ++ [CUpdate id u]) ls).
Proof. reflexivity. Qed.

Lemma ans_get_ticket (d : gmap Z ticket) (fs : list (option exn))
    (cs : list call) (ls : list (level * string)) (id : Z) (t : ticket) :
  id <> 0 -> d !! id = Some t ->
  get_ticket Otrs.service verbose id (Otrs.mk d (None :: fs) cs ls)
  = (Ok (Some t), Otrs.mk d fs (cs ++ [CGet id]) ls).
Proof.
  intros Hid H. unfold get_ticket, truthy.
  destruct (Z.eqb_spec id 0) as [|_]; [contradiction|]. simpl.
  unfold bind, try_except, tc_TicketGet, remote_call. simpl.
  unfold Otrs.answer, Otrs.do_get. simpl. now rewrite H.
Qed.

Lemma for_each_app {R A} (l1 l2 : list A) (body : A -> M R unit)
    (w : world R) :
  for_each (l1 ++ l2) body w = (for_each l1 body ;; for_each l2 body) w.
Proof.
  revert w. induction l1 as [|x l1 IH]; intros w; [reflexivity|].
  cbn [app for_each]. unfold bind.
  destruct (body x w) as [[[]|e] w']; [|reflexivity].
  rewrite IH. reflexivity.
Qed.

Lemma bind_raises {R A B} (m : M R A) (f : A -> M R B) (w w' : world R)
    (e : exn) :
  m w = (Raise e, w') -> bind m f w = (Raise e, w').
Proof. unfold bind. now intros ->. Qed.

(** The loop of [merge_tickets] while the service answers. *)
Lemma ans_merge_loop (all : list article) (t2 : Z) (fs : list (option exn)) :
  forall (arts : list article) (d : gmap Z ticket) (cs : list call)
         (ls : list (level * string)) (T2 : ticket),
    (forall a, In a arts -> In a all) ->
    d !! t2 = Some T2 ->
    for_each arts (fun art =>
      i <- lift (py_index art all) ;;
      t_upd <- lift (py_getitem all i) ;;
      tc_TicketUpdate Otrs.service t2 (ByArticle t_upd))
      (Otrs.mk d (replicate (List.length arts) None ++ fs) cs ls)
    = (Ok tt,
       Otrs.mk (<[t2 := Otrs.add_articles T2 arts]> d) fs
         (cs ++ List.map (fun a => CUpdate t2 (ByArticle a)) arts) ls).
Proof.
  induction arts as [|a arts IH]; intros d cs ls T2 Hsub H2.
  - simpl. unfold ret. rewrite add_articles_nil, app_nil_r.
    now rewrite insert_id.
  - cbn [for_each List.length replicate app].
    destruct (index_getitem a all) as (i & Hi & Hg); [apply Hsub; now left|].
    rewrite Hi, bind_lift_ok, Hg, bind_lift_ok.
    erewrite bind_ok by (apply ans_update; exact H2).
    erewrite IH.
    + rewrite insert_insert_eq, add_articles_cons. cbn [List.map].
      now rewrite <- app_assoc.
    + intros b Hb. apply Hsub. now right.
    + apply lookup_insert_eq.
Qed.

(** The head of [merge_tickets]: both tickets fetched, articles read. *)
Lemma ans_merge_head (d : gmap Z ticket) (fs : list (option exn))
    (cs : list call) (ls : list (level * string)) (t1 t2 : Z)
    (T1 T2 : ticket) :
  t1 <> 0 -> t2 <> 0 -> d !! t1 = Some T1 -> d !! t2 = Some T2 ->
  exists ls',
    merge_tickets Otrs.service verbose t1 t2
      (Otrs.mk d (None :: None :: fs) cs ls)
    = for_each (Articles T1) (fun art =>
        i <- lift (py_index art (Articles T1)) ;;
        t_upd <- lift (py_getitem (Articles T1) i) ;;
        tc_TicketUpdate Otrs.service t2 (ByArticle t_upd))
        (Otrs.mk d fs (cs ++ [CGet t1; CGet t2]) ls').
Proof.
  intros H1 H2 L1 L2. unfold merge_tickets.
  erewrite bind_ok by apply when_info.
  erewrite bind_ok by (apply ans_get_ticket; eassumption).
  erewrite bind_ok by (apply ans_get_ticket; eassumption).
  destruct verbose; cbn [attr];
    (erewrite bind_ok by reflexivity);
    rewrite bind_ret; fold_mk; rewrite <- !app_assoc;
    eexists; reflexivity.
Qed.

Lemma merge_stops_at_failure (d : gmap Z ticket) (e : exn)
    (fs : list (option exn)) (cs : list call) (ls : list (level * string))
    (t1 t2 : Z) (T1 T2 : ticket) (sent todo : list article) (a : article) :
  t1 <> 0 -> t2 <> 0 -> d !! t1 = Some T1 -> d !! t2 = Some T2 ->
  Articles T1 = sent ++ a :: todo ->
  exists ls',
    merge_tickets Otrs.service verbose t1 t2
      (Otrs.mk d
         (None :: None :: replicate (List.length sent) None ++ Some e :: fs)
         cs ls)
    = (Raise e,
       Otrs.mk (<[t2 := Otrs.add_articles T2 sent]> d) fs
         (cs ++ [CGet t1; CGet t2]
             ++ List.map (fun x => CUpdate t2 (ByArticle x)) sent
             ++ [CUpdate t2 (ByArticle a)])
         ls').
Proof.
  intros H1 H2 L1 L2 HA.
  destruct (ans_merge_head d
              (replicate (List.length sent) None ++ Some e :: fs)
              cs ls t1 t2 T1 T2 H1 H2 L1 L2) as [ls' ->].
  exists ls'. rewrite HA at 1. rewrite for_each_app.
  erewrite bind_ok.
  2:{ apply (ans_merge_loop (Articles T1) t2 (Some e :: fs) sent);
        [|exact L2].
      intros x Hx. rewrite HA. apply in_or_app. now left. }
  cbn [for_each].
  destruct (index_getitem a (Articles T1)) as (i & Hi & Hg).
  { rewrite HA. apply in_or_app. right. now left. }
  rewrite Hi, bind_lift_ok, Hg, bind_lift_ok.
  erewrite bind_raises by apply fail_update.
  now rewrite <- !app_assoc.
Qed.

Lemma merged_then_close_fails (d : gmap Z ticket) (e : exn)
    (fs : list (option exn)) (cs : list call) (ls : list (level * string))
    (p s : Z) (rest : list Z) (ip : option string) (P S : ticket) :
  p <> 0 -> s <> 0 -> d !! p = Some P -> d !! s = Some S ->
  exists ls',
    handle_results Otrs.service verbose (p :: rest) [s] ip
      (Otrs.mk d
         (None :: None
            :: replicate (List.length (Articles P)) None ++ Some e :: fs)
         cs ls)
    = (Raise TypeError,
       Otrs.mk (<[s := Otrs.add_articles S (Articles P)]> d) fs
         (cs ++ [CGet p; CGet s]
             ++ List.map (fun x => CUpdate s (ByArticle x)) (Articles P)
             ++ [CUpdate p (ByTicket (T_State "resolved"))])
         ls').
Proof.
  intros Hp Hs LP LS.
  destruct (ans_merge_head d
              (replicate (List.length (Articles P)) None ++ Some e :: fs)
              cs ls p s P S Hp Hs LP LS) as [ls' Hhead].
  unfold handle_results. cbn [List.length Nat.ltb Nat.leb].
  rewrite !getitem_head, !bind_lift_ok.
  erewrite bind_ok.
  2:{ rewrite Hhead.
      apply (ans_merge_loop (Articles P) s (Some e :: fs) (Articles P));
        [trivial | exact LS]. }
  erewrite bind_raises.
  2:{ unfold close_ticket. erewrite bind_ok by apply when_info.
      erewrite guarded_update_fails by reflexivity. reflexivity. }
  eexists. cbn [remote calls logs Otrs.mk Otrs.db Otrs.faults].
  unfold Otrs.mk. now rewrite <- !app_assoc.
Qed.

End MidMerge.

(** When the update for one article fails, [merge_tickets] neither
    catches nor rewrites the exception: it is raised as it came, the
    articles sent before it stay appended to the destination, and the
    remaining ones are not sent. *)
Theorem merge_tickets_partial (verbose : bool) (d : gmap Z ticket) (e : exn)
    (fs : list (option exn)) (cs : list call) (ls : list (level * string))
    (t1 t2 : Z) (T1 T2 : ticket) (sent todo : list article) (a : article) :
  t1 <> 0 -> t2 <> 0 -> d !! t1 = Some T1 -> d !! t2 = Some T2 ->
  Articles T1 = sent ++ a :: todo ->
  exists ls',
    merge_tickets Otrs.service verbose t1 t2
      (Otrs.mk d
         (None :: None :: replicate (List.length sent) None ++ Some e :: fs)
         cs ls)
    = (Raise e,
       Otrs.mk (<[t2 := Otrs.add_articles T2 sent]> d) fs
         (cs ++ [CGet t1; CGet t2]
             ++ List.map (fun x => CUpdate t2 (ByArticle x)) sent
             ++ [CUpdate t2 (ByArticle a)])
         ls').
Proof. apply merge_stops_at_failure. Qed.

Lemma merge_tickets_partial_witness :
  exists ls',
    merge_tickets Otrs.service false 100 50
      (Otrs.mk Sample.store_B
         (None :: None
            :: replicate (List.length [Sample.art1]) None
            ++ Some (RemoteError "timeout") :: [])
         [] [])
    = (Raise (RemoteError "timeout"),
       Otrs.mk
         (<[50 := Otrs.add_articles Sample.D50 [Sample.art1]]> Sample.store_B)
         []
         ([] ++ [CGet 100; CGet 50]
             ++ List.map (fun x => CUpdate 50 (ByArticle x)) [Sample.art1]
             ++ [CUpdate 50 (ByArticle Sample.art2)])
         ls').
Proof.
  apply (merge_tickets_partial false Sample.store_B (RemoteError "timeout")
           [] [] [] 100 50 Sample.P100 Sample.D50 [Sample.art1] []
           Sample.art2);
    [lia | lia | reflexivity | reflexivity | reflexivity].
Defined.

(** When the merge went through and the update that closes the primary
    ticket then fails, [handle_results] ends with [TypeError]: the
    dossier keeps the merged articles, the primary ticket is not
    resolved, and the update that reopens the dossier is never sent. *)
Theorem handle_results_half_merged (verbose : bool) (d : gmap Z ticket)
    (e : exn) (fs : list (option exn)) (cs : list call)
    (ls : list (level * string)) (p s : Z) (rest : list Z)
    (ip : option string) (P S : ticket) :
  p <> 0 -> s <> 0 -> d !! p = Some P -> d !! s = Some S ->
  exists ls',
    handle_results Otrs.service verbose (p :: rest) [s] ip
      (Otrs.mk d
         (None :: None
            :: replicate (List.length (Articles P)) None ++ Some e :: fs)
         cs ls)
    = (Raise TypeError,
       Otrs.mk (<[s := Otrs.add_articles S (Articles P)]> d) fs
         (cs ++ [CGet p; CGet s]
             ++ List.map (fun x => CUpdate s (ByArticle x)) (Articles P)
             ++ [CUpdate p (ByTicket (T_State "resolved"))])
         ls').
Proof. apply merged_then_close_fails. Qed.

Lemma handle_results_half_merged_witness :
  exists ls',
    handle_results Otrs.service false [100] [50] (Some "203.0.113.5")
      (Otrs.mk Sample.store_B
         (None :: None
            :: replicate (List.length (Articles Sample.P100)) None
            ++ Some (RemoteError "timeout") :: [])
         [] [])
    = (Raise TypeError,
       Otrs.mk
         (<[50 := Otrs.add_articles Sample.D50 (Articles Sample.P100)]>
            Sample.store_B)
         []
         ([] ++ [CGet 100; CGet 50]
             ++ List.map (fun x => CUpdate 50 (ByArticle x))
                  (Articles Sample.P100)
             ++ [CUpdate 100 (ByTicket (T_State "resolved"))])
         ls').
Proof.
  apply (handle_results_half_merged false Sample.store_B
           (RemoteError "timeout") [] [] [] 100 50 []
           (Some "203.0.113.5") Sample.P100 Sample.D50);
    [lia | lia | reflexivity | reflexivity].
Defined.

(** ** The size of an extracted address *)

Section Shape.
Import Text Re.

Lemma ip_pattern_length (m : list ascii) :
  Matches ip_pattern m -> (7 <= List.length m <= 15)%nat.
Proof.
  unfold ip_pattern. intros H.
  apply Matches_rep_inv in H as (d1 & m1 & -> & L1 & _ & H).
  apply Matches_one_inv in H as (s1 & m2 & -> & _ & H).
  apply Matches_rep_inv in H as (d2 & m3 & -> & L2 & _ & H).
  apply Matches_one_inv in H as (s2 & m4 & -> & _ & H).
  apply Matches_rep_inv in H as (d3 & m5 & -> & L3 & _ & H).
  apply Matches_one_inv in H as (s3 & m6 & -> & _ & H).
  apply Matches_rep_inv in H as (d4 & m7 & -> & L4 & _ & H).
  apply Matches_nil_inv in H as ->.
  repeat (rewrite ?length_app; cbn [List.length]). lia.
Qed.

Lemma extract_ip_length_aux (title ip : string) :
  extract_ip title = Some ip -> (7 <= String.length ip <= 15)%nat.
Proof.
  unfold extract_ip.
  destruct (search ip_pattern (chars title)) as [m|] eqn:Hs; [|discriminate].
  intros [= <-]. destruct (search_some _ _ _ Hs) as (_ & _ & _ & HM & _).
  rewrite <- length_chars, chars_text. now apply ip_pattern_length.
Qed.

End Shape.

(** Whatever the title, an extracted address is between 7 and 15
    characters long. *)
Theorem extract_ip_length (title ip : string) :
  extract_ip title = Some ip -> (7 <= String.length ip <= 15)%nat.
Proof. apply extract_ip_length_aux. Qed.

Lemma extract_ip_length_witness :
  (7 <= String.length "999x1y22z333" <= 15)%nat.
Proof.
  apply (extract_ip_length "a 999x1y22z3333 b" "999x1y22z333").
  reflexivity.
Defined.

(** ** A failing first update in the new-dossier action *)

Section FirstUpdateFails.
Context {R : Type}.
Variable client : Remote R.
Variable verbose : bool.

Lemma new_dossier_title_fails (p : Z) (rest : list Z) (ip : string)
    (w : world R) (e : exn) (r' : R) :
  TicketUpdate client p (ByTicket (T_Title (dossier_phrase ip))) (remote w)
  = (Raise e, r') ->
  fst (handle_results client verbose (p :: rest) [] (Some ip) w)
  = Raise TypeError /\
  calls (snd (handle_results client verbose (p :: rest) [] (Some ip) w))
  = calls w ++ [CUpdate p (ByTicket (T_Title (dossier_phrase ip)))] /\
  remote (snd (handle_results client verbose (p :: rest) [] (Some ip) w))
  = r'.
Proof.
  intros H. unfold handle_results. cbn [List.length Nat.ltb Nat.leb].
  rewrite dossier_title_phrase, !getitem_head, !bind_lift_ok.
  assert (exists ls',
            update_ticket_title client verbose p (dossier_phrase ip) w
            = (Raise TypeError,
               {| remote := r';
                  calls := calls w
                    ++ [CUpdate p (ByTicket (T_Title (dossier_phrase ip)))];
                  logs := ls' |})) as [ls' E].
  { unfold update_ticket_title, bind, try_except, tc_TicketUpdate,
      remote_call.
    destruct verbose; cbn [when log_at ret remote calls logs]; rewrite H;
      eexists; reflexivity. }
  rewrite (bind_raises _ _ _ _ _ E). cbn [fst snd calls remote]. auto.
Qed.

End FirstUpdateFails.

(** In the new-dossier action the three updates are not independent:
    when the title update fails, [handle_results] ends with [TypeError]
    after that one call, and the queue and state updates are never
    sent. *)
Theorem new_dossier_stops_at_first_failure {R : Type} (client : Remote R)
    (verbose : bool) (p : Z) (rest : list Z) (ip : string) (w : world R)
    (e : exn) (r' : R) :
  TicketUpdate client p (ByTicket (T_Title (dossier_phrase ip))) (remote w)
  = (Raise e, r') ->
  fst (handle_results client verbose (p :: rest) [] (Some ip) w)
  = Raise TypeError /\
  calls (snd (handle_results client verbose (p :: rest) [] (Some ip) w))
  = calls w ++ [CUpdate p (ByTicket (T_Title (dossier_phrase ip)))] /\
  remote (snd (handle_results client verbose (p :: rest) [] (Some ip) w))
  = r'.
Proof. apply new_dossier_title_fails. Qed.

Lemma new_dossier_stops_at_first_failure_witness :
  fst (handle_results Otrs.service true [100] [] (Some "203.0.113.5")
         (Otrs.fresh Sample.store_A [Some (RemoteError "timeout")]))
  = Raise TypeError /\
  calls (snd (handle_results Otrs.service true [100] []
                (Some "203.0.113.5")
                (Otrs.fresh Sample.store_A [Some (RemoteError "timeout")])))
  = calls (Otrs.fresh Sample.store_A [Some (RemoteError "timeout")])
    ++ [CUpdate 100 (ByTicket (T_Title (dossier_phrase "203.0.113.5")))] /\
  remote (snd (handle_results Otrs.service true [100] []
                 (Some "203.0.113.5")
                 (Otrs.fresh Sample.store_A [Some (RemoteError "timeout")])))
  = {| Otrs.db := Sample.store_A; Otrs.faults := [] |}.
Proof.
  apply (new_dossier_stops_at_first_failure Otrs.service true 100 []
           "203.0.113.5"
           (Otrs.fresh Sample.store_A [Some (RemoteError "timeout")])
           (RemoteError "timeout")).
  reflexivity.
Defined.

(** ** One ticket through the driver *)

Lemma process_ticket_converts (verbose : bool) (d : gmap Z ticket)
    (cs : list call) (ls : list (level * string)) (primary : list Z)
    (t : Z) (T : ticket) (ip : string) :
  In t primary -> t <> 0 -> d !! t = Some T ->
  extract_ip (Title T) = Some ip ->
  Otrs.do_search secondary_queues (secondary_title (Some ip)) d = (Ok [], d) ->
  exists ls',
    process_ticket Otrs.service verbose primary t (Otrs.up d cs ls)
    = (Ok [],
       Otrs.up
         (<[t := {| Title := dossier_phrase ip; QueueID := dossier_queue;
                    State := "Open"; Articles := Articles T;
                    DynamicFields := DynamicFields T |}]> d)
         (cs ++ [CGet t;
                 CSearch secondary_queues (secondary_title (Some ip));
                 CUpdate t (ByTicket (T_Title (dossier_phrase ip)));
                 CUpdate t (ByTicket (T_QueueIDs [dossier_queue]));
                 CUpdate t (ByTicket (T_State "Open"))])
         ls').
Proof.
  intros Hin Ht LT Hip Hsearch. unfold process_ticket.
  destruct (index_getitem t primary Hin) as (i & -> & Hg).
  rewrite bind_lift_ok, Hg, bind_lift_ok.
  destruct (get_ticket_title_ip_run Otrs.service verbose t (Otrs.up d cs ls))
    as [_ Hrun].
  destruct (Hrun Ht) as (Hres & Hcalls & Hrem). clear Hrun.
  assert (TicketGet Otrs.service t (remote (Otrs.up d cs ls))
          = (Ok T, {| Otrs.db := d; Otrs.faults := [] |})) as HG.
  { simpl. unfold Otrs.answer, Otrs.do_get. simpl. now rewrite LT. }
  rewrite HG in Hres, Hrem. simpl in Hres, Hrem. rewrite Hip in Hres.
  destruct (get_ticket_title_ip Otrs.service verbose t (Otrs.up d cs ls))
    as [res w1] eqn:E.
  simpl in Hres, Hcalls, Hrem. subst res.
  destruct w1 as [r1 c1 l1]. simpl in Hcalls, Hrem. subst r1 c1.
  erewrite bind_ok by exact E.
  erewrite bind_ok.
  2:{ apply secondary_search_ok. cbn [remote Otrs.service TicketSearch].
      unfold Otrs.answer. cbn [Otrs.faults Otrs.db]. now rewrite Hsearch. }
  destruct (up_new_dossier verbose d
              ((cs ++ [CGet t])
                 ++ [CSearch secondary_queues (secondary_title (Some ip))])
              l1 t [] ip T LT) as [ls2 Hnew].
  erewrite bind_ok by exact Hnew.
  exists ls2. unfold ret, Otrs.up, Otrs.mk. now rewrite <- !app_assoc.
Qed.

(** A primary ticket whose title yields an IP for which the secondary
    search finds nothing goes through the loop body as: one fetch, one
    secondary search for the extracted text, then the three new-dossier
    updates with the title built from that same text. *)
Theorem process_ticket_new_dossier (verbose : bool) (d : gmap Z ticket)
    (cs : list call) (ls : list (level * string)) (primary : list Z)
    (t : Z) (T : ticket) (ip : string) :
  In t primary -> t <> 0 -> d !! t = Some T ->
  extract_ip (Title T) = Some ip ->
  Otrs.do_search secondary_queues (secondary_title (Some ip)) d = (Ok [], d) ->
  exists ls',
    process_ticket Otrs.service verbose primary t (Otrs.up d cs ls)
    = (Ok [],
       Otrs.up
         (<[t := {| Title := dossier_phrase ip; QueueID := dossier_queue;
                    State := "Open"; Articles := Articles T;
                    DynamicFields := DynamicFields T |}]> d)
         (cs ++ [CGet t;
                 CSearch secondary_queues (secondary_title (Some ip));
                 CUpdate t (ByTicket (T_Title (dossier_phrase ip)));
                 CUpdate t (ByTicket (T_QueueIDs [dossier_queue]));
                 CUpdate t (ByTicket (T_State "Open"))])
         ls').
Proof. apply process_ticket_converts. Qed.

Lemma process_ticket_new_dossier_witness :
  exists ls',
    process_ticket Otrs.service false [100] 100 (Otrs.up Sample.store_A [] [])
    = (Ok [],
       Otrs.up
         (<[100 := {| Title := dossier_phrase "203.0.113.5";
                      QueueID := dossier_queue; State := "Open";
                      Articles := Articles Sample.P100;
                      DynamicFields := DynamicFields Sample.P100 |}]>
            Sample.store_A)
         ([] ++ [CGet 100;
                 CSearch secondary_queues
                   (secondary_title (Some "203.0.113.5"%string));
                 CUpdate 100
                   (ByTicket (T_Title (dossier_phrase "203.0.113.5")));
                 CUpdate 100 (ByTicket (T_QueueIDs [dossier_queue]));
                 CUpdate 100 (ByTicket (T_State "Open"))])
         ls').
Proof.
  apply (process_ticket_new_dossier false Sample.store_A [] [] [100] 100
           Sample.P100 "203.0.113.5").
  - simpl. tauto.
  - lia.
  - reflexivity.
  - reflexivity.
  - reflexivity.
Defined.

(** ** The classification table *)

(** For an IP given as a string and a service that answers, the two
    lengths decide what one call of [handle_results] does, as
    tabulated: with no primary ticket nothing but the optional log
    line; with a primary ticket and no dossier the title, queue and state
    updates on the first primary ticket; with exactly one dossier the
    fetches, one article update per article, resolved on the primary
    ticket and Open on the dossier; with several dossiers the abort line
    and no call. *)
Theorem handle_results_table (verbose : bool) (d : gmap Z ticket)
    (cs : list call) (ls : list (level * string))
    (primary secondary : list Z) (ip : string) :
  let run :=
    handle_results Otrs.service verbose primary secondary (Some ip)
      (Otrs.up d cs ls) in
  match classify (List.length primary) (List.length secondary) with
  | NoAction =>
      run = (Ok tt,
             Otrs.up d cs
               (ls ++ info verbose ("No results found for ip: " +:+ ip)))
  | NewDossier =>
      forall p P,
        head primary = Some p -> d !! p = Some P ->
        exists ls',
          run = (Ok tt,
                 Otrs.up
                   (<[p := {| Title := dossier_phrase ip;
                              QueueID := dossier_queue; State := "Open";
                              Articles := Articles P;
                              DynamicFields := DynamicFields P |}]> d)
                   (cs ++ [CUpdate p (ByTicket (T_Title (dossier_phrase ip)));
                           CUpdate p (ByTicket (T_QueueIDs [dossier_queue]));
                           CUpdate p (ByTicket (T_State "Open"))])
                   ls')
  | Merge =>
      forall p s P S,
        head primary = Some p -> secondary = [s] ->
        p <> 0 -> s <> 0 -> d !! p = Some P -> d !! s = Some S ->
        fst run = Ok tt /\
        calls (snd run)
        = cs ++ [CGet p; CGet s]
             ++ List.map (fun a => CUpdate s (ByArticle a)) (Articles P)
             ++ [CUpdate p (ByTicket (T_State "resolved"));
                 CUpdate s (ByTicket (T_State "Open"))] /\
        (exists S',
           Otrs.db (remote (snd run)) !! s = Some S' /\
           State S' = "Open" /\ Articles S' = Articles S ++ Articles P) /\
        (p <> s ->
         exists P',
           Otrs.db (remote (snd run)) !! p = Some P' /\
           State P' = "resolved" /\ Articles P' = Articles P)
  | Abort =>
      run = (Ok tt, Otrs.up d cs (ls ++ [(Error, abort_line)]))
  end.
Proof.
  destruct primary as [|p0 primary]; cbn [List.length classify].
  - unfold handle_results, info. destruct verbose; [reflexivity|].
    simpl. unfold ret, Otrs.up, Otrs.mk. now rewrite app_nil_r.
  - destruct secondary as [|s0 [|s1 secondary]]; cbn [List.length classify].
    + intros p P [= <-] LP. now apply up_new_dossier.
    + intros p s P S [= <-] [= <-] Hp Hs LP LS. now apply up_merge_branch.
    + reflexivity.
Qed.

Lemma handle_results_table_witness :
  exists ls',
    handle_results Otrs.service false [100] [] (Some "203.0.113.5")
      (Otrs.up Sample.store_A [] [])
    = (Ok tt,
       Otrs.up
         (<[100 := {| Title := dossier_phrase "203.0.113.5";
                      QueueID := dossier_queue; State := "Open";
                      Articles := Articles Sample.P100;
                      DynamicFields := DynamicFields Sample.P100 |}]>
            Sample.store_A)
         ([] ++ [CUpdate 100
                   (ByTicket (T_Title (dossier_phrase "203.0.113.5")));
                 CUpdate 100 (ByTicket (T_QueueIDs [dossier_queue]));
                 CUpdate 100 (ByTicket (T_State "Open"))])
         ls').
Proof.
  exact (handle_results_table false Sample.store_A [] [] [100] []
           "203.0.113.5" 100 Sample.P100 eq_refl eq_refl).
Defined.
